(** * Viterbi text segmentation (text.ipynb, [viterbi_segment])

    A shallow embedding of the notebook's [viterbi_segment] and the
    properties its description states.

    - Python's [float] arithmetic enters through the interface [Arith]
      (the constants [0.0] and [1.0], [*] and [>=]); its instances are the
      binary64 numbers Python computes with and the exact rationals.
    - Python lists are [list]s indexed with Python's rules (negative
      indices count from the end, an index out of range raises
      [IndexError]).
    - The model [P] is an object with a state of its own; [P[w]] is a
      call of its [__getitem__], which returns a number and may change
      that state.
    - The function runs in a state and exception monad; the [while] loop
      takes fuel, and the properties say how much fuel is enough.

    The file has the program, the notions of the description, the
    lemmas on the loops, the laws of the two arithmetics, the
    properties C1 to C10 with their concrete instances, and the further
    properties X1 to X6 with theirs. *)

From Stdlib Require Import ZArith String Ascii List Bool Lia QArith Floats.
From stdpp Require Import base list.

(** * The program *)

(** ** Numbers *)

(** The operations [viterbi_segment] performs on probabilities. *)
Class Arith (F : Type) := {
  zero : F;                 (* the literal 0.0 *)
  one : F;                  (* the literal 1.0 *)
  mul : F -> F -> F;        (* x * y *)
  geb : F -> F -> bool      (* x >= y *)
}.

(** Python's [float]: IEEE 754 binary64. [x >= y] is [y <= x], false as
    soon as one side is a NaN. *)
#[export] Instance float_arith : Arith float := {|
  zero := 0%float;
  one := 1%float;
  mul := PrimFloat.mul;
  geb x y := PrimFloat.leb y x
|}.

(** Exact rational arithmetic. *)
#[export] Instance Q_arith : Arith Q := {|
  zero := 0%Q;
  one := 1%Q;
  mul := Qmult;
  geb x y := Qle_bool y x
|}.

(** ** Python values *)

(** [len(s)] of a string and of a list. *)
Definition len_str (s : string) : Z := Z.of_nat (String.length s).
Definition len_list {A} (l : list A) : Z := Z.of_nat (List.length l).

(** [text[j:i]] for indices [j], [i] that come out of a [range]: the
    characters at positions [j], ..., [i-1] that exist. *)
Definition slice (text : string) (j i : nat) : string :=
  substring j (i - j) text.

(** [list(text)]: the characters of [text], each a string of length 1. *)
Fixpoint list_of_str (text : string) : list string :=
  match text with
  | EmptyString => []
  | String c rest => String c EmptyString :: list_of_str rest
  end.

(** [range(a, b)]. *)
Definition range (a b : nat) : list nat := seq a (b - a).

(** The position an index denotes in a list of [n] elements: a negative
    index counts from the end, and an index outside the list is an
    [IndexError] ([None]). *)
Definition index_of (n : nat) (k : Z) : option nat :=
  if (0 <=? k)%Z then
    if (k <? Z.of_nat n)%Z then Some (Z.to_nat k) else None
  else
    if (0 <=? k + Z.of_nat n)%Z then Some (Z.to_nat (k + Z.of_nat n))
    else None.

(** [l[k]]. *)
Definition list_getitem {A} (l : list A) (k : Z) : option A :=
  match index_of (List.length l) k with
  | Some p => l !! p
  | None => None
  end.

(** [l[k] = x]. *)
Definition list_setitem {A} (l : list A) (k : Z) (x : A) : option (list A) :=
  match index_of (List.length l) k with
  | Some p => Some (<[p := x]> l)
  | None => None
  end.

(** ** The monad: the model's state, exceptions, fuel *)

(** What a computation ends with: a value, the exception [IndexError],
    or no fuel left for a [while] loop. *)
Inductive result (A : Type) : Type :=
  | Val (a : A)
  | IndexError
  | OutOfFuel.
Arguments Val {A} a.
Arguments IndexError {A}.
Arguments OutOfFuel {A}.

(** A computation over the state [S] of the model. The state a
    computation has reached stays when it raises. *)
Definition M (S A : Type) : Type := S -> result A * S.

Definition ret {S A} (a : A) : M S A := fun s => (Val a, s).

Definition bind {S A B} (m : M S A) (k : A -> M S B) : M S B :=
  fun s =>
    match m s with
    | (Val a, s') => k a s'
    | (IndexError, s') => (IndexError, s')
    | (OutOfFuel, s') => (OutOfFuel, s')
    end.

(** An operation on a list that raises [IndexError] when it has no
    result. *)
Definition lift {S A} (o : option A) : M S A :=
  fun s => match o with Some a => (Val a, s) | None => (IndexError, s) end.

Declare Scope py_scope.
Delimit Scope py_scope with py.
Notation "x <- m ;; k" := (bind m (fun x => k))
  (at level 100, m at level 99, k at level 200, right associativity) : py_scope.
Local Open Scope py_scope.

(** [for x in xs: acc = body(x, acc)]. *)
Fixpoint for_each {S X A} (xs : list X) (body : X -> A -> M S A) (acc : A)
  : M S A :=
  match xs with
  | [] => ret acc
  | x :: rest => acc' <- body x acc ;; for_each rest body acc'
  end.

(** [while cond(acc): acc = body(acc)], at most [fuel] iterations. *)
Fixpoint while {S A} (fuel : nat) (cond : A -> bool) (body : A -> M S A)
  (acc : A) : M S A :=
  if cond acc then
    match fuel with
    | O => fun s => (OutOfFuel, s)
    | Datatypes.S fuel' => acc' <- body acc ;; while fuel' cond body acc'
    end
  else ret acc.

(** ** The model *)

(** [P.__getitem__]: from a token and the state of the model, a number
    and the state of the model after the call. The notebook takes [P] as
    an argument and no more of it than [P[w]]. *)
Definition Model (F S : Type) : Type := string -> S -> F * S.

(** The token-to-probability mapping of the model in state [s]. *)
Definition prob {F S} (P : Model F S) (s : S) (w : string) : F :=
  fst (P w s).

(** A model whose lookups leave it as it is. *)
Definition read_only {F S} (P : Model F S) : Prop :=
  forall w s, snd (P w s) = s.

(** A probability table used as a model: its state is the table. *)
Definition table {F} : Model F (string -> F) := fun w t => (t w, t).

(** ** The function

<<
def viterbi_segment(text, P):
    n = len(text)
    words = [''] + list(text)
    best = [1.0] + [0.0] * n
    for i in range(n+1):
        for j in range(0, i):
            w = text[j:i]
            newbest = P[w] * best[i - len(w)]
            if newbest >= best[i]:
                best[i] = newbest
                words[i] = w
    sequence = []
    i = len(words) - 1
    while i > 0:
        sequence[0:0] = [words[i]]
        i = i - len(words[i])
    return sequence, best[-1]
>> *)

Section Viterbi.
Context {F : Type} `{Arith F} {S : Type}.
Variable P : Model F S.

(** [P[w]]. *)
Definition model_getitem (w : string) : M S F :=
  fun s => let (x, s') := P w s in (Val x, s').

(** [words = [''] + list(text)] and [best = [1.0] + [0.0] * n]. *)
Definition init_words (text : string) : list string :=
  EmptyString :: list_of_str text.
Definition init_best (text : string) : list F :=
  one :: repeat zero (String.length text).

(** The body of the inner loop. *)
Definition dp_body (text : string) (i j : nat)
  (tables : list F * list string) : M S (list F * list string) :=
  let '(best, words) := tables in
  let w := slice text j i in
  pw <- model_getitem w ;;
  bj <- lift (list_getitem best (Z.of_nat i - len_str w)%Z) ;;
  let newbest := mul pw bj in
  bi <- lift (list_getitem best (Z.of_nat i)) ;;
  if geb newbest bi then
    best <- lift (list_setitem best (Z.of_nat i) newbest) ;;
    words <- lift (list_setitem words (Z.of_nat i) w) ;;
    ret (best, words)
  else ret (best, words).

(** [for j in range(0, i)]. *)
Definition dp_inner (text : string) (i : nat)
  (tables : list F * list string) : M S (list F * list string) :=
  for_each (range 0 i) (dp_body text i) tables.

(** [for i in range(n+1)]. *)
Definition dp_loop (text : string) (tables : list F * list string)
  : M S (list F * list string) :=
  for_each (range 0 (String.length text + 1)) (dp_inner text) tables.

(** The body and the test of the backtracking loop, on the pair of
    [i] and [sequence]. *)
Definition backtrack_body (words : list string) (st : Z * list string)
  : M S (Z * list string) :=
  let '(i, sequence) := st in
  w <- lift (list_getitem words i) ;;
  ret ((i - len_str w)%Z, w :: sequence).

Definition backtrack_cond (st : Z * list string) : bool := (0 <? fst st)%Z.

(** [sequence = []; i = len(words) - 1; while i > 0: ...]. The result is
    the pair of [i] and [sequence] when the loop ends. *)
Definition backtrack (fuel : nat) (words : list string)
  : M S (Z * list string) :=
  while fuel backtrack_cond (backtrack_body words)
    ((len_list words - 1)%Z, []).

(** The whole function; [fuel] bounds the iterations of the [while]
    loop. *)
Definition viterbi_segment (fuel : nat) (text : string)
  : M S (list string * F) :=
  tables <- dp_loop text (init_best text, init_words text) ;;
  let '(best, words) := tables in
  st <- backtrack fuel words ;;
  let '(_, sequence) := st in
  p <- lift (list_getitem best (-1)%Z) ;;
  ret (sequence, p).
End Viterbi.

(** * The notions of the description *)

(** ** Order and probabilities *)

Section Order.
Context {F : Type} `{Arith F}.

(** [x <= y] and [x < y] as the comparison [>=] decides them. *)
Definition le (x y : F) : Prop := geb y x = true.
Definition lt (x y : F) : Prop := geb y x = true /\ geb x y = false.

(** The probabilities: the numbers of the interval [[0, 1]]; the
    positive ones are the interval [(0, 1]]. *)
Definition unit_interval (x : F) : Prop := le zero x /\ le x one.
Definition positive_prob (x : F) : Prop := lt zero x /\ le x one.
End Order.

(** The order and product laws the optimality argument uses. They are
    stated on the unit interval only: binary64, with its NaNs, infinities
    and rounding, satisfies them there ([float_laws]) as the rationals
    do ([Q_laws]). *)
Class ArithLaws (F : Type) `{Arith F} : Prop := {
  le_trans : forall x y z : F,
    unit_interval x -> unit_interval y -> unit_interval z ->
    le x y -> le y z -> le x z;
  le_total : forall x y : F,
    unit_interval x -> unit_interval y -> le x y \/ le y x;
  unit_zero : unit_interval (zero : F);
  unit_one : unit_interval (one : F);
  mul_unit : forall x y : F,
    unit_interval x -> unit_interval y -> unit_interval (mul x y);
  mul_mono : forall a b c : F,
    unit_interval a -> unit_interval b -> unit_interval c ->
    le b c -> le (mul a b) (mul a c);
  mul_one_r : forall x : F, unit_interval x -> mul x one = x
}.

(** ** Strings *)

(** The words of a sequence joined in order. *)
Definition join (ws : list string) : string :=
  fold_right String.append EmptyString ws.

Definition chars (s : string) : list ascii := list_ascii_of_string s.

(** ** Tables *)

(** Both tables have [n + 1] entries. *)
Definition shape {F} (text : string) (tables : list F * list string) : Prop :=
  length (fst tables) = String.length text + 1 /\
  length (snd tables) = String.length text + 1.

(** The tables [tb] and [tb0] differ at position [i] at most. *)
Definition agree_except {F} (i : nat) (tb0 tb : list F * list string) : Prop :=
  forall k, k <> i ->
    fst tb !! k = fst tb0 !! k /\ snd tb !! k = snd tb0 !! k.

(** Every entry of [words] at a position [k >= 1] is a slice of [text]
    that ends at [k] and starts before it. *)
Definition suffixes (text : string) (words : list string) : Prop :=
  forall k, 1 <= k <= String.length text ->
    exists j, j < k /\ words !! k = Some (slice text j k).

(** From position [k] on, every word of [sequence] is the entry of
    [words] at the position where the word ends. *)
Fixpoint reads (words : list string) (k : nat) (sequence : list string)
  : Prop :=
  match sequence with
  | [] => True
  | w :: rest =>
      words !! (k + String.length w) = Some w /\
      reads words (k + String.length w) rest
  end.

(** The entries from position [i] on are the initial ones. *)
Definition untouched {F} `{Arith F} (text : string)
  (tb : list F * list string) (i : nat) : Prop :=
  forall k, i <= k -> 1 <= k <= String.length text ->
    fst tb !! k = Some zero /\ snd tb !! k = Some (slice text (k - 1) k).

(** Every entry of [best] at a position from 1 on is the candidate of
    the word in [words] at that position. *)
Definition consistent {F} `{Arith F} (p : string -> F) (text : string)
  (tb : list F * list string) : Prop :=
  forall i, 1 <= i <= String.length text ->
    exists j bj,
      j < i /\ snd tb !! i = Some (slice text j i) /\
      fst tb !! j = Some bj /\
      fst tb !! i = Some (mul (p (slice text j i)) bj).

(** The tables [tb] and [tb'] have the same entries up to position [m]. *)
Definition agree_upto {F} (m : nat) (tb tb' : list F * list string) : Prop :=
  forall k, k <= m ->
    fst tb !! k = fst tb' !! k /\ snd tb !! k = snd tb' !! k.

(** ** Ties *)

(** What the inner loop leaves at position [i] after the candidates that
    start before [m]: the entry of [words] is the word of a start [j],
    every candidate that starts after [j] failed the test against the
    entry of [best], and that entry is the candidate of [j], unless no
    candidate passed the test and both entries are the initial ones. *)
Definition last_wins_upto {F} `{Arith F} (p : string -> F) (text : string)
  (tb : list F * list string) (i m : nat) : Prop :=
  exists j bi,
    j < i /\ snd tb !! i = Some (slice text j i) /\ fst tb !! i = Some bi /\
    (forall j' bj', j < j' < m -> fst tb !! j' = Some bj' ->
       geb (mul (p (slice text j' i)) bj') bi = false) /\
    ((exists bj, fst tb !! j = Some bj /\ bi = mul (p (slice text j i)) bj) \/
     (j = i - 1 /\ bi = zero /\
      forall j' bj', j' < m -> fst tb !! j' = Some bj' ->
        geb (mul (p (slice text j' i)) bj') zero = false)).

Definition last_wins {F} `{Arith F} (p : string -> F) (text : string)
  (tb : list F * list string) (i : nat) : Prop :=
  last_wins_upto p text tb i i.

(** ** Segmentations and their probabilities *)

(** A segmentation of [s]: nonempty words whose concatenation is [s]. *)
Definition segmentation (s : string) (ws : list string) : Prop :=
  join ws = s /\ Forall (fun w => w <> EmptyString) ws.

(** The joint probability of a sequence of words: the product of their
    probabilities, taken from the first word to the last as the
    dynamic programming does, [p w * acc] at every word. *)
Definition joint {F} `{Arith F} (p : string -> F) (ws : list string) : F :=
  fold_left (fun acc w => mul (p w) acc) ws one.

(** [b] is the maximum of the joint probabilities of the segmentations
    of [s]. *)
Definition best_joint {F} `{Arith F} (p : string -> F) (s : string) (b : F)
  : Prop :=
  (exists ws, segmentation s ws /\ joint p ws = b) /\
  (forall ws, segmentation s ws -> le (joint p ws) b).

(** The entries of [best] before position [i] are maxima. *)
Definition optimal_before {F} `{Arith F} (p : string -> F) (text : string)
  (tb : list F * list string) (i : nat) : Prop :=
  forall k, k < i ->
    exists b, fst tb !! k = Some b /\ best_joint p (slice text 0 k) b.

(** ** Models *)

(** The tokens the call looks up, in the order of the lookups. *)
Definition queries (text : string) : list string :=
  flat_map (fun i => map (fun j => slice text j i) (range 0 i))
           (range 0 (String.length text + 1)).

(** The state of the model after the lookups of [ws], in order. *)
Definition after_lookups {F S} (P : Model F S) (ws : list string) (s : S)
  : S :=
  fold_left (fun st w => snd (P w st)) ws s.

(** The model that gives every token the probability 0.0, as a table. *)
Definition zeros {F} `{Arith F} : string -> F := fun _ => zero.

(** The segmentation of [text] into its characters. *)
Definition per_character (text : string) : list string := list_of_str text.

(** A binary64 model in which the two segmentations of ["ab"] tie:
    [0.25 = 0.5 * 0.5]. *)
Definition quarter_half : string -> float := fun w =>
  if String.eqb w "ab" then 0.25%float else 0.5%float.

(** The same model over the rationals. *)
Definition quarter_half_Q : string -> Q := fun w =>
  if String.eqb w "ab" then (1 # 4)%Q else (1 # 2)%Q.

(** A small binary64 model: two words of probability 1/4, every other
    token 2^-20. *)
Definition it_is : string -> float := fun w =>
  if String.eqb w "it" || String.eqb w "is" then 0.25%float
  else 0x1p-20%float.

(** A model that records the tokens it is asked for. *)
Definition recording {F} (p : string -> F) : Model F (list string) :=
  fun w log => (p w, log ++ [w]).

(** No candidate of the model [p] passes the test: the entries of [best]
    a candidate is computed from are 1.0 and 0.0, and it is compared
    with 0.0. *)
Definition never_passes {F} `{Arith F} (p : string -> F) : Prop :=
  forall w,
    geb (mul (p w) one) zero = false /\ geb (mul (p w) zero) zero = false.

(** The binary64 model that answers NaN. *)
Definition nans : string -> float := fun _ => nan.

(** ** Three statements of the description that the program does not
    satisfy *)

(** The tie rule as the description has it: among the segmentations of
    [text] whose joint probability is the probability the call returns,
    the sequence the call returns has the longest final word. *)
Definition longest_final_word_wins {F} `{Arith F} (p : string -> F)
  (text : string) : Prop :=
  forall fuel sequence pr ws w w',
    fst (viterbi_segment table fuel text p) = Val (sequence, pr) ->
    segmentation text ws -> joint p ws = pr ->
    last sequence = Some w -> last ws = Some w' ->
    String.length w' <= String.length w.

(** The initial tables as the description has them: [best[0]] is 1.0,
    the other entries of [best] are 0.0, and the entries of [words] at
    the positions from 1 on are the empty word. *)
Definition initial_tables_with_sentinel {F} `{Arith F} (text : string)
  : Prop :=
  (init_best text : list F) !! 0 = Some one /\
  (forall i, 1 <= i <= String.length text ->
     (init_best text : list F) !! i = Some zero) /\
  (forall i, 1 <= i <= String.length text ->
     init_words text !! i = Some EmptyString).

(** The description of the model of zeros: the call returns the
    characters of [text] and the probability 0.0. *)
Definition zeros_give_zero {F} `{Arith F} (text : string) : Prop :=
  forall fuel, String.length text <= fuel ->
    fst (viterbi_segment table fuel text zeros)
    = Val (per_character text, zero).

(** ** Binary64 numbers

    The definitions that read the product of two binary64 numbers of
    [[0, 1]] off the Standard Library's specification of [PrimFloat.mul]
    ([SFmul], [binary_round_aux]). *)

Module Binary64.
Local Open Scope Z_scope.

(** The number of binary digits of a mantissa. *)
Definition digits (m : positive) : Z := Z.pos (digits2_pos m).

(** The record [r] holds [M] shifted right by [k] bits, the rest being
    [R]. *)
Definition shifted (M k : Z) (r : shr_record) (R : Z) : Prop :=
  0 <= k /\ 0 <= shr_m r /\
  M = shr_m r * 2 ^ k + R /\ 0 <= R < 2 ^ k /\
  (shr_r r = true <-> 2 ^ k <= 2 * R) /\
  (shr_s r = true <-> R <> 0 /\ 2 * R <> 2 ^ k).

(** Rounding [M / 2 ^ k] to the nearest integer, ties to even. *)
Definition rnd (M k : Z) : Z :=
  let q := M / 2 ^ k in
  let R := M mod 2 ^ k in
  if 2 ^ k <? 2 * R then q + 1
  else if (2 * R =? 2 ^ k) && Z.odd q then q + 1
  else q.

(** The exponent of the binary64 numbers of magnitude [x]: 53 bits of
    mantissa, the smallest exponent -1074. *)
Definition fexp64 (x : Z) : Z := Z.max (x - 53) (-1074).

(** The product of two positive numbers, before its sign. *)
Definition round_pos (m : positive) (e : Z) : spec_float :=
  binary_round_aux prec emax false (Z.pos m) e loc_Exact.

(** The result of [round_pos], from the rounded mantissa [n] at the
    exponent [E]. *)
Definition rounded (n E : Z) : spec_float :=
  if n =? 0 then S754_zero false
  else if n =? 2 ^ 53 then S754_finite false (2 ^ 52)%positive (E + 1)
  else S754_finite false (Z.to_pos n) E.

(** The order of the values [m1 * 2 ^ e1] and [m2 * 2 ^ e2], on integers. *)
Definition val_le (m1 : positive) (e1 : Z) (m2 : positive) (e2 : Z) : Prop :=
  Z.pos m1 * 2 ^ (e1 - Z.min e1 e2) <= Z.pos m2 * 2 ^ (e2 - Z.min e1 e2).

(** The mantissa [m] at the exponent [e] is a binary64 number. *)
Definition canonical (m : positive) (e : Z) : Prop :=
  fexp64 (digits m + e) = e.

(** A canonical positive number that is at most 1.0. *)
Definition at_most_one (m : positive) (e : Z) : Prop :=
  canonical m e /\ (e < -52 \/ (e = -52 /\ (m <= 2 ^ 52)%positive)).

(** A zero or a positive finite number. *)
Definition nonneg (x : spec_float) : Prop :=
  match x with
  | S754_zero _ | S754_finite false _ _ => True
  | _ => False
  end.

(** The order and the unit interval of binary64, as [PrimFloat.leb]
    decides them. *)
Definition fle (x y : float) : Prop := PrimFloat.leb x y = true.
Definition funit (x : float) : Prop := fle 0 x /\ fle x 1.

End Binary64.

(** * Lemmas *)

(** ** Strings as lists of characters *)

Lemma chars_inj (s1 s2 : string) : chars s1 = chars s2 -> s1 = s2.
Proof.
  unfold chars. intros E.
  rewrite <- (string_of_list_ascii_of_string s1).
  rewrite <- (string_of_list_ascii_of_string s2).
  now rewrite E.
Qed.

Lemma chars_length (s : string) : length (chars s) = String.length s.
Proof. unfold chars. induction s as [|c s IH]; simpl; congruence. Qed.

Lemma chars_append (s1 s2 : string) :
  chars (String.append s1 s2) = chars s1 ++ chars s2.
Proof. unfold chars. induction s1 as [|c s1 IH]; simpl; congruence. Qed.

Lemma append_empty_r (s : string) : String.append s EmptyString = s.
Proof. induction s as [|c s IH]; simpl; congruence. Qed.

Lemma append_assoc (s1 s2 s3 : string) :
  String.append (String.append s1 s2) s3
  = String.append s1 (String.append s2 s3).
Proof. induction s1 as [|c s1 IH]; simpl; congruence. Qed.

Lemma append_length (s1 s2 : string) :
  String.length (String.append s1 s2)
  = String.length s1 + String.length s2.
Proof. induction s1 as [|c s1 IH]; simpl; congruence. Qed.

Lemma chars_substring (n m : nat) (s : string) :
  chars (substring n m s) = take m (drop n (chars s)).
Proof.
  unfold chars. revert n m.
  induction s as [|c s IH]; intros [|n] [|m]; simpl;
    rewrite ?IH, ?drop_0, ?take_nil, ?take_0; trivial.
Qed.

Lemma chars_slice (text : string) (j i : nat) :
  chars (slice text j i) = take (i - j) (drop j (chars text)).
Proof. apply chars_substring. Qed.

Lemma slice_length (text : string) (j i : nat) :
  i <= String.length text ->
  String.length (slice text j i) = i - j.
Proof.
  intros Hi. rewrite <- chars_length, chars_slice.
  rewrite length_take, length_drop, chars_length. lia.
Qed.

Lemma slice_all (text : string) : slice text 0 (String.length text) = text.
Proof.
  apply chars_inj. rewrite chars_slice, drop_0, Nat.sub_0_r.
  apply take_ge. now rewrite chars_length.
Qed.

Lemma slice_nil (text : string) (j : nat) : slice text j j = EmptyString.
Proof.
  apply chars_inj. rewrite chars_slice, Nat.sub_diag. reflexivity.
Qed.

Lemma slice_append (text : string) (j i : nat) :
  j <= i ->
  String.append (slice text 0 j) (slice text j i) = slice text 0 i.
Proof.
  intros Hji. apply chars_inj.
  rewrite chars_append, !chars_slice, !drop_0, !Nat.sub_0_r.
  rewrite <- (take_drop j (take i (chars text))).
  rewrite take_take, Nat.min_l by lia.
  now rewrite take_drop_commute, Nat.add_comm, Nat.sub_add by lia.
Qed.

(** A string that ends a prefix of [text] is a slice of [text]. *)
Lemma append_slice_inv (text a w : string) (i : nat) :
  i <= String.length text ->
  String.append a w = slice text 0 i ->
  String.length w <= i /\
  a = slice text 0 (i - String.length w) /\
  w = slice text (i - String.length w) i.
Proof.
  intros Hi E.
  assert (El : chars a ++ chars w = take i (chars text)).
  { rewrite <- chars_append, E, chars_slice, drop_0. f_equal. lia. }
  assert (Hlen : length (chars a) + length (chars w) = i).
  { rewrite <- length_app, El, length_take, chars_length. lia. }
  rewrite !chars_length in Hlen.
  assert (Ea : length (chars a) = i - String.length w)
    by (rewrite chars_length; lia).
  split; [lia|]. split; apply chars_inj; rewrite chars_slice, <- Ea.
  - rewrite drop_0, Nat.sub_0_r.
    rewrite <- (Nat.min_l (length (chars a)) i) by lia.
    rewrite <- take_take, <- El. now rewrite take_app_length.
  - replace (i - length (chars a)) with (length (chars w))
      by (rewrite chars_length; lia).
    rewrite take_drop_commute.
    replace (length (chars a) + length (chars w)) with i
      by (rewrite !chars_length; lia).
    now rewrite <- El, drop_app_length.
Qed.

Lemma list_of_str_lookup (text : string) (k : nat) :
  k < String.length text ->
  list_of_str text !! k = Some (slice text k (k + 1)).
Proof.
  revert k. induction text as [|c text IH]; simpl; intros k Hk; [lia|].
  destruct k as [|k]; simpl.
  - unfold slice. simpl. now destruct text.
  - rewrite IH by lia. unfold slice. simpl.
    now replace (k + 1 - k) with (Datatypes.S (k + 1) - Datatypes.S k) by lia.
Qed.

Lemma list_of_str_length (text : string) :
  length (list_of_str text) = String.length text.
Proof. induction text as [|c text IH]; simpl; congruence. Qed.

(** ** Python indexing *)

Lemma index_of_nat (n k : nat) :
  k < n -> index_of n (Z.of_nat k) = Some k.
Proof.
  intros Hk. unfold index_of.
  destruct (Z.leb_spec 0 (Z.of_nat k)); [|lia].
  destruct (Z.ltb_spec (Z.of_nat k) (Z.of_nat n)); [|lia].
  now rewrite Nat2Z.id.
Qed.

Lemma list_getitem_nat {A} (l : list A) (k : nat) (x : A) :
  l !! k = Some x -> list_getitem l (Z.of_nat k) = Some x.
Proof.
  intros Hx. unfold list_getitem.
  now rewrite index_of_nat by (eapply lookup_lt_Some; eauto).
Qed.

Lemma list_setitem_nat {A} (l : list A) (k : nat) (x : A) :
  k < length l -> list_setitem l (Z.of_nat k) x = Some (<[k := x]> l).
Proof.
  intros Hk. unfold list_setitem. now rewrite index_of_nat.
Qed.

(** [l[-1]] is the last element. *)
Lemma list_getitem_last {A} (l : list A) (k : nat) (x : A) :
  length l = k + 1 -> l !! k = Some x -> list_getitem l (-1)%Z = Some x.
Proof.
  intros Hl Hx. unfold list_getitem, index_of. rewrite Hl.
  destruct (Z.leb_spec 0 (-1)); [lia|].
  destruct (Z.leb_spec 0 (-1 + Z.of_nat (k + 1))); [|lia].
  now replace (Z.to_nat (-1 + Z.of_nat (k + 1))) with k by lia.
Qed.

Lemma repeat_lookup {A} (x : A) (n k : nat) :
  k < n -> repeat x n !! k = Some x.
Proof.
  revert k. induction n as [|n IH]; intros k Hk; [lia|].
  destruct k as [|k]; simpl; [reflexivity|]. apply IH. lia.
Qed.

(** ** Running the monad *)

Lemma bind_val {S A B} (m : M S A) (k : A -> M S B) (s s' : S) (a : A) :
  m s = (Val a, s') -> bind m k s = k a s'.
Proof. intros E. unfold bind. now rewrite E. Qed.

Lemma lift_some {S A} (o : option A) (a : A) (s : S) :
  o = Some a -> lift o s = (Val a, s).
Proof. now intros ->. Qed.

(** The invariant rule of [for k in range(0, n)]: [I k] holds before
    the iteration of [k], every iteration returns, and [I n] holds in the
    end. *)
Lemma for_range_rule {S A} (I : nat -> A -> S -> Prop)
  (body : nat -> A -> M S A) (n : nat) (a : A) (s : S) :
  I 0 a s ->
  (forall k a s, k < n -> I k a s ->
     exists a' s', body k a s = (Val a', s') /\ I (k + 1) a' s') ->
  exists a' s', for_each (range 0 n) body a s = (Val a', s') /\ I n a' s'.
Proof.
  intros H0 Hstep. unfold range. rewrite Nat.sub_0_r.
  assert (G : forall len start a s,
    start + len = n -> I start a s ->
    exists a' s', for_each (seq start len) body a s = (Val a', s') /\
                  I n a' s').
  { induction len as [|len IH]; intros start b t E Hb; simpl.
    - exists b, t. rewrite Nat.add_0_r in E. subst start. now split.
    - destruct (Hstep start b t) as (b' & t' & Eb & Hb'); [lia|assumption|].
      destruct (IH (Datatypes.S start) b' t') as (b'' & t'' & Er & Hr).
      + lia.
      + now replace (Datatypes.S start) with (start + 1) by lia.
      + exists b'', t''. split; [|assumption].
        now rewrite (bind_val _ _ _ _ _ Eb). }
  now apply (G n 0).
Qed.

(** The rule of [while]: an invariant, and a variant the fuel covers. *)
Lemma while_rule {S A} (I : A -> S -> Prop) (variant : A -> nat)
  (cond : A -> bool) (body : A -> M S A) (fuel : nat) (a : A) (s : S) :
  I a s -> variant a <= fuel ->
  (forall a s, I a s -> cond a = true ->
     exists a' s', body a s = (Val a', s') /\ I a' s' /\
                   variant a' < variant a) ->
  exists a' s', while fuel cond body a s = (Val a', s') /\ I a' s' /\
                cond a' = false.
Proof.
  intros Ha Hfuel Hstep. revert a s Ha Hfuel.
  induction fuel as [|fuel IH]; intros a s Ha Hfuel; simpl;
    destruct (cond a) eqn:Ec.
  - destruct (Hstep a s Ha Ec) as (a' & s' & _ & _ & Hv). lia.
  - now exists a, s.
  - destruct (Hstep a s Ha Ec) as (a' & s' & Eb & Ha' & Hv).
    destruct (IH a' s' Ha') as (a'' & s'' & Ew & Hw); [lia|].
    exists a'', s''. split; [|assumption].
    now rewrite (bind_val _ _ _ _ _ Eb).
  - now exists a, s.
Qed.

(** ** The dynamic programming loops *)

Section Loops.
Context {F : Type} `{Arith F} {S : Type}.
Variable P : Model F S.
Variable text : string.

(** One iteration of the inner loop: it reads [best[j]] and [best[i]],
    and writes position [i] of both tables when the test passes. *)
Lemma dp_body_run (i j : nat) (best : list F) (words : list string) (s : S) :
  j < i -> i <= String.length text -> shape text (best, words) ->
  exists bj bi,
    best !! j = Some bj /\ best !! i = Some bi /\
    dp_body P text i j (best, words) s =
      (Val (if geb (mul (prob P s (slice text j i)) bj) bi
            then (<[i := mul (prob P s (slice text j i)) bj]> best,
                  <[i := slice text j i]> words)
            else (best, words)),
       snd (P (slice text j i) s)).
Proof.
  intros Hj Hi [Hb Hw]; simpl in Hb, Hw.
  destruct (lookup_lt_is_Some_2 best j) as [bj Ej]; [lia|].
  destruct (lookup_lt_is_Some_2 best i) as [bi Ei]; [lia|].
  exists bj, bi. split; [assumption|]. split; [assumption|].
  unfold dp_body, prob.
  destruct (P (slice text j i) s) as [x s'] eqn:EP. simpl.
  unfold bind at 1, model_getitem. rewrite EP.
  assert (Ek : (Z.of_nat i - len_str (slice text j i))%Z = Z.of_nat j).
  { unfold len_str. rewrite slice_length by assumption. lia. }
  rewrite Ek.
  rewrite (bind_val _ _ _ _ _ (lift_some _ _ _ (list_getitem_nat _ _ _ Ej))).
  rewrite (bind_val _ _ _ _ _ (lift_some _ _ _ (list_getitem_nat _ _ _ Ei))).
  destruct (geb (mul x bj) bi); [|reflexivity].
  rewrite (bind_val _ _ s' _ _
             (lift_some _ _ _ (list_setitem_nat best i (mul x bj) ltac:(lia)))).
  rewrite (bind_val _ _ s' _ _
             (lift_some _ _ _
                (list_setitem_nat words i (slice text j i) ltac:(lia)))).
  reflexivity.
Qed.

(** The rule of the inner loop: an invariant [J j] over the tables and
    the state of the model, checked on the two outcomes of the test. *)
Lemma dp_inner_rule (J : nat -> list F * list string -> S -> Prop)
  (i : nat) (tb0 : list F * list string) (s0 : S) :
  i <= String.length text -> shape text tb0 -> J 0 tb0 s0 ->
  (forall j best words s bj bi,
     j < i -> shape text (best, words) -> agree_except i tb0 (best, words) ->
     J j (best, words) s ->
     best !! j = Some bj -> best !! i = Some bi ->
     J (j + 1)
       (if geb (mul (prob P s (slice text j i)) bj) bi
        then (<[i := mul (prob P s (slice text j i)) bj]> best,
              <[i := slice text j i]> words)
        else (best, words))
       (snd (P (slice text j i) s))) ->
  exists tb s,
    dp_inner P text i tb0 s0 = (Val tb, s) /\
    shape text tb /\ agree_except i tb0 tb /\ J i tb s.
Proof.
  intros Hi Hshape H0 Hstep. unfold dp_inner.
  apply (for_range_rule
           (fun j tb s => shape text tb /\ agree_except i tb0 tb /\ J j tb s)).
  - split; [assumption|]. split; [|assumption]. now intros k _.
  - intros j [best words] s Hj (Hsh & Hag & HJ).
    destruct (dp_body_run i j best words s Hj Hi Hsh)
      as (bj & bi & Ej & Ei & Erun).
    specialize (Hstep j best words s bj bi Hj Hsh Hag HJ Ej Ei).
    eexists _, _. split; [exact Erun|].
    destruct (geb (mul (prob P s (slice text j i)) bj) bi).
    + split; [|split; [|assumption]].
      * destruct Hsh as [Hb Hw]. split; simpl in *;
          now rewrite length_insert.
      * intros k Hk. destruct (Hag k Hk) as [E1 E2]. simpl in *.
        now rewrite !list_lookup_insert_ne by congruence.
    + now split.
Qed.

(** The rule of the outer loop. *)
Lemma dp_loop_rule (O : nat -> list F * list string -> S -> Prop)
  (tb0 : list F * list string) (s0 : S) :
  shape text tb0 -> O 0 tb0 s0 ->
  (forall i tb s,
     i <= String.length text -> shape text tb -> O i tb s ->
     exists tb' s',
       dp_inner P text i tb s = (Val tb', s') /\ shape text tb' /\
       O (i + 1) tb' s') ->
  exists tb s,
    dp_loop P text tb0 s0 = (Val tb, s) /\ shape text tb /\
    O (String.length text + 1) tb s.
Proof.
  intros Hshape H0 Hstep. unfold dp_loop.
  apply (for_range_rule (fun i tb s => shape text tb /\ O i tb s)).
  - now split.
  - intros i tb s Hi [Hsh HO].
    destruct (Hstep i tb s) as (tb' & s' & E & Hsh' & HO');
      [lia|assumption|assumption|].
    now exists tb', s'.
Qed.

(** The tables the loops start from. *)
Lemma init_shape : shape text (init_best text, init_words text).
Proof.
  split; simpl.
  - rewrite repeat_length. lia.
  - rewrite list_of_str_length. lia.
Qed.

Lemma init_best_zero (k : nat) :
  1 <= k <= String.length text -> init_best text !! k = Some zero.
Proof.
  intros Hk. unfold init_best. destruct k as [|k]; [lia|]. simpl.
  apply repeat_lookup. lia.
Qed.

Lemma init_words_char (k : nat) :
  1 <= k <= String.length text ->
  init_words text !! k = Some (slice text (k - 1) k).
Proof.
  intros Hk. unfold init_words. destruct k as [|k]; [lia|]. simpl.
  rewrite list_of_str_lookup by lia.
  now replace (k + 1) with (Datatypes.S k) by lia;
    replace (k - 0) with k by lia.
Qed.

End Loops.

(** ** The words table and the backtracking loop, for any model *)

Lemma reads_last (words sequence : list string) (k : nat) (w : string) :
  reads words k sequence -> last sequence = Some w ->
  words !! (k + String.length (join sequence)) = Some w.
Proof.
  revert k. induction sequence as [|w0 rest IH]; intros k Hrd Hlast;
    [discriminate|].
  destruct Hrd as [Ew Hrd]. simpl join. rewrite append_length.
  destruct rest as [|w1 rest].
  - simpl in *. injection Hlast as <-. now rewrite Nat.add_0_r.
  - rewrite Nat.add_assoc. apply IH; assumption.
Qed.

Section Structure.
Context {F : Type} `{Arith F} {S : Type}.
Variable P : Model F S.
Variable text : string.

Lemma init_suffixes : suffixes text (init_words text).
Proof.
  intros k Hk. exists (k - 1). split; [lia|]. now apply init_words_char.
Qed.

Lemma dp_inner_suffixes (i : nat) (tb : list F * list string) (s : S) :
  i <= String.length text -> shape text tb -> suffixes text (snd tb) ->
  exists tb' s',
    dp_inner P text i tb s = (Val tb', s') /\ shape text tb' /\
    agree_except i tb tb' /\ suffixes text (snd tb').
Proof.
  intros Hi Hsh Hsuf.
  apply (dp_inner_rule P text (fun _ tb _ => suffixes text (snd tb)));
    try assumption.
  intros j best words s1 bj bi Hj Hsh1 _ Hs1 _ _.
  destruct (geb _ bi); [|assumption].
  intros k Hk. simpl. destruct (decide (k = i)) as [->|Hne].
  - exists j. split; [assumption|].
    apply list_lookup_insert_eq. destruct Hsh1 as [_ Hw]. simpl in Hw. lia.
  - destruct (Hs1 k Hk) as (j' & Hj' & E). exists j'. split; [assumption|].
    simpl in E. now rewrite list_lookup_insert_ne by congruence.
Qed.

Lemma dp_loop_suffixes (s : S) :
  exists best words s',
    dp_loop P text (init_best text, init_words text) s
      = (Val (best, words), s') /\
    shape text (best, words) /\ suffixes text words.
Proof.
  destruct (dp_loop_rule P text (fun _ tb _ => suffixes text (snd tb))
              (init_best text, init_words text) s)
    as ([best words] & s' & E & Hsh & Hsuf).
  - apply init_shape.
  - apply init_suffixes.
  - intros i tb s1 Hi Hsh Hsuf.
    destruct (dp_inner_suffixes i tb s1 Hi Hsh Hsuf)
      as (tb' & s' & E & Hsh' & _ & Hsuf').
    now exists tb', s'.
  - now exists best, words, s'.
Qed.

(** One iteration of the backtracking loop at a position [k >= 1]. *)
Lemma backtrack_body_run (words : list string) (k : nat)
  (sequence : list string) (s : S) :
  length words = String.length text + 1 -> suffixes text words ->
  1 <= k <= String.length text ->
  exists j, j < k /\ words !! k = Some (slice text j k) /\
    backtrack_body words (Z.of_nat k, sequence) s
      = (Val (Z.of_nat j, slice text j k :: sequence), s).
Proof.
  intros Hlen Hsuf Hk. destruct (Hsuf k Hk) as (j & Hj & E).
  exists j. split; [assumption|]. split; [assumption|].
  unfold backtrack_body.
  rewrite (bind_val _ _ _ _ _ (lift_some _ _ _ (list_getitem_nat _ _ _ E))).
  unfold ret, len_str. rewrite slice_length by lia.
  do 3 f_equal. lia.
Qed.

(** The backtracking loop returns at position 0 with a sequence of
    nonempty words that spells [text]. *)
Lemma backtrack_run (fuel : nat) (words : list string) (s : S) :
  length words = String.length text + 1 -> suffixes text words ->
  String.length text <= fuel ->
  exists sequence,
    backtrack fuel words s = (Val (0%Z, sequence), s) /\
    join sequence = text /\
    Forall (fun w => w <> EmptyString) sequence /\
    reads words 0 sequence.
Proof.
  intros Hlen Hsuf Hfuel. unfold backtrack.
  destruct (while_rule
    (fun (st : Z * list string) (s' : S) =>
       s' = s /\
       exists k, fst st = Z.of_nat k /\ k <= String.length text /\
         String.append (slice text 0 k) (join (snd st)) = text /\
         Forall (fun w => w <> EmptyString) (snd st) /\
         reads words k (snd st))
    (fun st => Z.to_nat (fst st))
    backtrack_cond (backtrack_body words) fuel
    ((len_list words - 1)%Z, []) s)
    as ([i sequence] & s' & E & (-> & k & Ek & Hk & Hjoin & Hne & Hrd) & Hc).
  - split; [reflexivity|]. exists (String.length text). simpl.
    unfold len_list. rewrite Hlen.
    repeat split; try lia; try constructor.
    rewrite slice_all. apply append_empty_r.
  - unfold len_list. simpl. lia.
  - intros [i sequence] s' (-> & k & Ek & Hk & Hjoin & Hne & Hrd) Hc.
    simpl in *. subst i. unfold backtrack_cond in Hc. simpl in Hc.
    apply Z.ltb_lt in Hc.
    destruct (backtrack_body_run words k sequence s Hlen Hsuf)
      as (j & Hj & Ew & Erun); [lia|].
    eexists _, s. split; [exact Erun|]. simpl.
    assert (El : String.length (slice text j k) = k - j)
      by (apply slice_length; lia).
    split; [|lia]. split; [reflexivity|]. exists j.
    repeat split; try lia.
    + now rewrite <- append_assoc, slice_append by lia.
    + constructor; [|assumption]. intros E0. rewrite E0 in El.
      simpl in El. lia.
    + rewrite El. now replace (j + (k - j)) with k by lia.
    + rewrite El. now replace (j + (k - j)) with k by lia.
  - simpl in *. subst i. unfold backtrack_cond in Hc. simpl in Hc.
    apply Z.ltb_ge in Hc. assert (k = 0) as -> by lia.
    exists sequence. rewrite slice_nil in Hjoin. now repeat split.
Qed.

(** The whole call, after the tables of the dynamic programming. *)
Lemma viterbi_segment_run (fuel : nat) (s s1 : S)
  (best : list F) (words : list string) :
  dp_loop P text (init_best text, init_words text) s
    = (Val (best, words), s1) ->
  shape text (best, words) -> suffixes text words ->
  String.length text <= fuel ->
  exists sequence p,
    viterbi_segment P fuel text s = (Val (sequence, p), s1) /\
    backtrack fuel words s1 = (Val (0%Z, sequence), s1) /\
    best !! String.length text = Some p /\
    join sequence = text /\
    Forall (fun w => w <> EmptyString) sequence /\
    reads words 0 sequence.
Proof.
  intros Edp [Hb Hw] Hsuf Hfuel. simpl in Hb, Hw.
  destruct (backtrack_run fuel words s1 Hw Hsuf Hfuel)
    as (sequence & Ebt & Hjoin & Hne & Hrd).
  destruct (lookup_lt_is_Some_2 best (String.length text)) as [p Ep]; [lia|].
  exists sequence, p. repeat split; try assumption.
  unfold viterbi_segment.
  rewrite (bind_val _ _ _ _ _ Edp).
  rewrite (bind_val _ _ _ _ _ Ebt).
  now rewrite (bind_val _ _ _ _ _
                 (lift_some _ _ _ (list_getitem_last _ _ _ Hb Ep))).
Qed.

End Structure.

(** ** The tie rule, for a read-only model and any arithmetic *)

Section ReadOnly.
Context {F : Type} `{Arith F} {S : Type}.
Variable P : Model F S.
Variable text : string.
Variable s0 : S.
Hypothesis P_read_only : read_only P.

Lemma last_wins_agree (i k : nat) (tb tb' : list F * list string) :
  k < i -> agree_except i tb tb' ->
  last_wins (prob P s0) text tb k -> last_wins (prob P s0) text tb' k.
Proof.
  intros Hk Hag (j & bk & Hj & Ew & Eb & Hlater & Hor).
  assert (Hb : forall q, q <= k -> fst tb' !! q = fst tb !! q)
    by (intros q Hq; apply Hag; lia).
  exists j, bk. split; [assumption|].
  split; [now rewrite (proj2 (Hag k ltac:(lia)))|].
  split; [now rewrite Hb|]. split.
  - intros j' bj' Hj' E. apply Hlater; [assumption|].
    now rewrite <- Hb by lia.
  - destruct Hor as [(bj & Ej & ->)|(-> & -> & Hnone)]; [left|right].
    + exists bj. split; [|reflexivity]. now rewrite Hb by lia.
    + repeat split. intros j' bj' Hj' E. apply (Hnone j' bj' Hj').
      now rewrite <- Hb by lia.
Qed.

Lemma dp_inner_last_wins (i : nat) (tb : list F * list string) :
  1 <= i <= String.length text -> shape text tb ->
  untouched text tb i ->
  exists tb',
    dp_inner P text i tb s0 = (Val tb', s0) /\ shape text tb' /\
    agree_except i tb tb' /\ last_wins (prob P s0) text tb' i.
Proof.
  intros Hi Hsh Hun.
  destruct (dp_inner_rule P text
    (fun m tb' s => s = s0 /\ last_wins_upto (prob P s0) text tb' i m)
    i tb s0) as (tb' & s' & E & Hsh' & Hag & -> & Hlw);
    [lia|assumption| | |now exists tb'].
  - split; [reflexivity|]. destruct (Hun i) as [Eb Ew]; [lia|lia|].
    exists (i - 1), zero. split; [lia|]. split; [assumption|].
    split; [assumption|]. split; [intros; lia|].
    right. repeat split. intros; lia.
  - intros m best words s bm bi Hm [_ Hw] _
      (-> & j & bi' & Hj & Ew & Eb & Hlater & Hor) Em Ei.
    simpl in Hw, Ew, Eb, Hlater, Hor.
    rewrite Ei in Eb. injection Eb as <-.
    split; [apply P_read_only|].
    destruct (geb (mul (prob P s0 (slice text m i)) bm) bi) eqn:Etest.
    + exists m, (mul (prob P s0 (slice text m i)) bm). simpl.
      split; [assumption|].
      split; [apply list_lookup_insert_eq; lia|].
      split; [apply list_lookup_insert_eq; eapply lookup_lt_Some; eauto|].
      split; [intros; lia|]. left. exists bm. split; [|reflexivity].
      now rewrite list_lookup_insert_ne by lia.
    + exists j, bi. simpl. split; [assumption|]. split; [assumption|].
      split; [assumption|]. split.
      * intros j' bj' Hj' E'.
        destruct (decide (j' = m)) as [->|Hne].
        -- rewrite Em in E'. now injection E' as <-.
        -- apply Hlater; [lia|assumption].
      * destruct Hor as [Hacc|(-> & -> & Hnone)]; [now left|right].
        repeat split. intros j' bj' Hj' E'.
        destruct (decide (j' = m)) as [->|Hne].
        -- rewrite Em in E'. now injection E' as <-.
        -- apply Hnone; [lia|assumption].
Qed.

(** An iteration of the outer loop with no candidate, as for [i = 0]. *)
Lemma dp_inner_zero (tb : list F * list string) (s : S) :
  dp_inner P text 0 tb s = (Val tb, s).
Proof. reflexivity. Qed.

Lemma dp_loop_last_wins :
  exists best words,
    dp_loop P text (init_best text, init_words text) s0
      = (Val (best, words), s0) /\
    shape text (best, words) /\
    forall i, 1 <= i <= String.length text ->
      last_wins (prob P s0) text (best, words) i.
Proof.
  destruct (dp_loop_rule P text
    (fun i tb s => s = s0 /\ untouched text tb i /\
       forall k, 1 <= k < i -> last_wins (prob P s0) text tb k)
    (init_best text, init_words text) s0)
    as ([best words] & s & E & Hsh & -> & _ & Hlw).
  - apply init_shape.
  - split; [reflexivity|]. split; [|intros; lia].
    intros k _ Hk. split; [now apply init_best_zero|].
    now apply init_words_char.
  - intros i tb s Hi Hsh (-> & Hun & Hlw).
    destruct (decide (i = 0)) as [->|Hpos].
    + exists tb, s0. rewrite dp_inner_zero.
      repeat split; try apply Hsh; try (intros; lia).
      * now apply Hun; lia.
      * now apply Hun; lia.
    + destruct (dp_inner_last_wins i tb) as (tb' & E & Hsh' & Hag & Hi');
        [lia|assumption|assumption|].
      exists tb', s0. split; [assumption|]. split; [assumption|].
      split; [reflexivity|]. split.
      * intros k Hk Hkn. destruct (Hag k ltac:(lia)) as [-> ->].
        apply Hun; lia.
      * intros k Hk. destruct (decide (k = i)) as [->|Hne]; [assumption|].
        apply (last_wins_agree i k tb tb'); [lia|assumption|].
        apply Hlw. lia.
  - exists best, words. split; [assumption|]. split; [assumption|].
    intros i Hi. apply Hlw. lia.
Qed.

End ReadOnly.

(** ** Optimality, for a read-only model with probabilities in [[0, 1]] *)

Lemma join_snoc (ws : list string) (w : string) :
  join (ws ++ [w]) = String.append (join ws) w.
Proof.
  induction ws as [|w0 ws IH]; simpl.
  - apply append_empty_r.
  - now rewrite IH, append_assoc.
Qed.

Lemma join_length_nil (ws : list string) :
  Forall (fun w => w <> EmptyString) ws ->
  String.length (join ws) = 0 -> ws = [].
Proof.
  intros Hne Hl. destruct ws as [|w ws]; [reflexivity|].
  simpl in Hl. rewrite append_length in Hl.
  inversion Hne as [|? ? Hw _]; subst. destruct w; [congruence|].
  simpl in Hl. lia.
Qed.

Lemma segmentation_snoc (text : string) (ws : list string) (j i : nat) :
  j < i <= String.length text ->
  segmentation (slice text 0 j) ws ->
  segmentation (slice text 0 i) (ws ++ [slice text j i]).
Proof.
  intros Hji [Ej Hne]. split.
  - rewrite join_snoc, Ej. apply slice_append. lia.
  - apply Forall_app. split; [assumption|]. constructor; [|constructor].
    intros E0. assert (El := slice_length text j i ltac:(lia)).
    rewrite E0 in El. simpl in El. lia.
Qed.

Lemma segmentation_snoc_inv (text : string) (ws : list string) (i : nat) :
  1 <= i <= String.length text ->
  segmentation (slice text 0 i) ws ->
  exists ws' j,
    j < i /\ ws = ws' ++ [slice text j i] /\
    segmentation (slice text 0 j) ws'.
Proof.
  intros Hi [Ei Hne].
  destruct ws as [|w0 ws0] using rev_ind.
  - assert (El := slice_length text 0 i ltac:(lia)).
    rewrite <- Ei in El. simpl in El. lia.
  - clear IHws0. rename ws0 into ws', w0 into w.
    apply Forall_app in Hne as [Hne' Hw].
    inversion Hw as [|? ? Hw0 _]; subst.
    rewrite join_snoc in Ei.
    destruct (append_slice_inv text (join ws') w i ltac:(lia) Ei)
      as (Hlen & Ea & Ew).
    assert (1 <= String.length w) by (destruct w; simpl; [congruence|lia]).
    exists ws', (i - String.length w). split; [lia|].
    split; [now rewrite <- Ew|]. now split.
Qed.

Section Optimal.
Context {F : Type} `{ArithLaws F} {S : Type}.
Variable P : Model F S.
Variable text : string.
Variable s0 : S.
Hypothesis P_read_only : read_only P.
Hypothesis P_unit : forall w, unit_interval (prob P s0 w).

Lemma le_refl (x : F) : unit_interval x -> le x x.
Proof. intros Hx. now destruct (le_total x x Hx Hx). Qed.

Lemma joint_snoc (p : string -> F) (ws : list string) (w : string) :
  joint p (ws ++ [w]) = mul (p w) (joint p ws).
Proof. unfold joint. now rewrite fold_left_app. Qed.

Lemma joint_unit (ws : list string) : unit_interval (joint (prob P s0) ws).
Proof.
  induction ws as [|w ws IH] using rev_ind.
  - apply unit_one.
  - rewrite joint_snoc. now apply mul_unit.
Qed.

Lemma best_joint_unit (s : string) (b : F) :
  best_joint (prob P s0) s b -> unit_interval b.
Proof. intros [(ws & _ & <-) _]. apply joint_unit. Qed.

Lemma best_joint_empty : best_joint (prob P s0) EmptyString one.
Proof.
  split.
  - exists []. repeat split. constructor.
  - intros ws [Ej Hne]. rewrite (join_length_nil ws Hne) by now rewrite Ej.
    apply le_refl, unit_one.
Qed.

Lemma dp_inner_optimal (i : nat) (tb : list F * list string) :
  1 <= i <= String.length text -> shape text tb ->
  optimal_before (prob P s0) text tb i -> fst tb !! i = Some zero ->
  exists tb',
    dp_inner P text i tb s0 = (Val tb', s0) /\ shape text tb' /\
    agree_except i tb tb' /\
    exists b, fst tb' !! i = Some b /\
              best_joint (prob P s0) (slice text 0 i) b.
Proof.
  intros Hi Hsh Hopt Hzero.
  destruct (dp_inner_rule P text
    (fun m tb' s => s = s0 /\
       exists bi, fst tb' !! i = Some bi /\ unit_interval bi /\
         (forall j' bj', j' < m -> fst tb' !! j' = Some bj' ->
            le (mul (prob P s0 (slice text j' i)) bj') bi) /\
         ((m = 0 /\ bi = zero) \/
          exists j' bj', j' < m /\ fst tb' !! j' = Some bj' /\
            bi = mul (prob P s0 (slice text j' i)) bj'))
    i tb s0)
    as (tb' & s' & E & Hsh' & Hag & -> & b & Eb & Hb & Hup & Hex);
    [lia|assumption| | |].
  - split; [reflexivity|]. exists zero. split; [assumption|].
    split; [apply unit_zero|]. split; [intros; lia|now left].
  - intros m best words s bm bi Hm [Hlb _] Hag
      (-> & bi' & Ei' & Hbi & Hup & Hex) Em Ei.
    simpl in Hlb, Ei', Hup, Hex. rewrite Ei in Ei'. injection Ei' as <-.
    split; [apply P_read_only|].
    assert (Hbest : forall j' bj', j' < i -> best !! j' = Some bj' ->
              unit_interval bj').
    { intros j' bj' Hj' E'. destruct (Hopt j' Hj') as (b & Eb & Hb).
      rewrite <- (proj1 (Hag j' ltac:(lia))) in Eb. simpl in Eb.
      rewrite E' in Eb. injection Eb as ->.
      now apply best_joint_unit in Hb. }
    assert (Hbm : unit_interval bm) by now apply (Hbest m).
    set (c := mul (prob P s0 (slice text m i)) bm).
    assert (Hc : unit_interval c) by now apply mul_unit.
    destruct (geb c bi) eqn:Etest.
    + exists c. simpl.
      split; [apply list_lookup_insert_eq; lia|]. split; [assumption|].
      split.
      * intros j' bj' Hj' E'. rewrite list_lookup_insert_ne in E' by lia.
        destruct (decide (j' = m)) as [->|Hne].
        -- rewrite Em in E'. injection E' as <-. now apply le_refl.
        -- apply le_trans with bi; try assumption.
           ++ apply mul_unit; [apply P_unit|]. apply (Hbest j'); [lia|assumption].
           ++ apply Hup; [lia|assumption].
      * right. exists m, bm. split; [lia|].
        now rewrite list_lookup_insert_ne by lia.
    + assert (Hle : le c bi).
      { destruct (le_total c bi Hc Hbi) as [Hle|Hle]; [assumption|].
        unfold le in Hle. congruence. }
      exists bi. simpl. split; [assumption|]. split; [assumption|]. split.
      * intros j' bj' Hj' E'.
        destruct (decide (j' = m)) as [->|Hne].
        -- rewrite Em in E'. now injection E' as <-.
        -- apply Hup; [lia|assumption].
      * right. destruct Hex as [[_ ->]|(j' & bj' & Hj' & E' & Ebi)].
        -- destruct Hc as [Hc _]. unfold le in Hc. congruence.
        -- exists j', bj'. split; [lia|]. now split.
  - exists tb'. split; [assumption|]. split; [assumption|].
    split; [assumption|]. exists b. split; [assumption|].
    assert (Hold : forall j, j < i ->
      exists bj, fst tb' !! j = Some bj /\
                 best_joint (prob P s0) (slice text 0 j) bj).
    { intros j Hj. destruct (Hopt j Hj) as (bj & Ej & Hbj).
      exists bj. split; [|assumption].
      now rewrite (proj1 (Hag j ltac:(lia))). }
    destruct Hex as [[-> _]|(j & bj & Hj & Ej & ->)]; [lia|]. split.
    + destruct (Hold j Hj) as (bj' & Ej' & (ws & Hseg & Ejoint) & _).
      rewrite Ej in Ej'. injection Ej' as <-.
      exists (ws ++ [slice text j i]).
      split; [apply segmentation_snoc; [lia|assumption]|].
      now rewrite joint_snoc, Ejoint.
    + intros ws Hseg.
      destruct (segmentation_snoc_inv text ws i Hi Hseg)
        as (ws' & j' & Hj' & -> & Hseg').
      destruct (Hold j' Hj') as (bj' & Ej' & Hbest').
      rewrite joint_snoc.
      assert (Hbj' : unit_interval bj') by now apply best_joint_unit in Hbest'.
      apply le_trans with (mul (prob P s0 (slice text j' i)) bj').
      * apply mul_unit; [apply P_unit|apply joint_unit].
      * now apply mul_unit.
      * assumption.
      * apply mul_mono; [apply P_unit|apply joint_unit|assumption|].
        now apply Hbest'.
      * now apply Hup.
Qed.

Lemma dp_loop_optimal :
  exists best words,
    dp_loop P text (init_best text, init_words text) s0
      = (Val (best, words), s0) /\
    shape text (best, words) /\
    best !! 0 = Some one /\
    forall i, i <= String.length text ->
      exists b, best !! i = Some b /\
                best_joint (prob P s0) (slice text 0 i) b.
Proof.
  destruct (dp_loop_rule P text
    (fun i tb s => s = s0 /\ fst tb !! 0 = Some one /\
       (forall k, i <= k -> 1 <= k <= String.length text ->
          fst tb !! k = Some zero) /\
       optimal_before (prob P s0) text tb i)
    (init_best text, init_words text) s0)
    as ([best words] & s & E & Hsh & -> & Hone & _ & Hopt).
  - apply init_shape.
  - split; [reflexivity|]. split; [reflexivity|].
    split; [|intros k Hk; lia].
    intros k _ Hk. now apply init_best_zero.
  - intros i tb s Hi Hsh (-> & Hone & Hzero & Hopt).
    destruct (decide (i = 0)) as [->|Hpos].
    + exists tb, s0. rewrite dp_inner_zero.
      split; [reflexivity|]. split; [assumption|].
      split; [reflexivity|]. split; [assumption|].
      split; [intros k Hk Hkn; apply Hzero; lia|].
      intros k Hk. assert (k = 0) as -> by lia. exists one.
      split; [assumption|]. rewrite slice_nil. apply best_joint_empty.
    + destruct (dp_inner_optimal i tb) as (tb' & E & Hsh' & Hag & Hi');
        [lia|assumption|assumption|apply Hzero; lia|].
      exists tb', s0. split; [assumption|]. split; [assumption|].
      split; [reflexivity|].
      split; [now rewrite (proj1 (Hag 0 ltac:(lia)))|].
      split.
      * intros k Hk Hkn. rewrite (proj1 (Hag k ltac:(lia))).
        apply Hzero; lia.
      * intros k Hk. destruct (decide (k = i)) as [->|Hne]; [assumption|].
        rewrite (proj1 (Hag k Hne)). apply Hopt. lia.
  - exists best, words. split; [assumption|]. split; [assumption|].
    split; [assumption|]. intros i Hi. apply Hopt. lia.
Qed.

End Optimal.

(** ** The model that gives every token the probability 0.0 *)

Lemma per_character_slices (text : string) :
  per_character text
  = map (fun q => slice text q (q + 1)) (seq 0 (String.length text)).
Proof.
  unfold per_character. apply list_eq. intros k.
  rewrite list_lookup_fmap.
  destruct (decide (k < String.length text)) as [Hk|Hk].
  - rewrite list_of_str_lookup by assumption.
    now rewrite lookup_seq_lt by assumption.
  - rewrite lookup_ge_None_2 by (rewrite list_of_str_length; lia).
    now rewrite lookup_seq_ge by lia.
Qed.

(** Backtracking through a table of single characters reads the
    characters of [text]. *)
Lemma reads_characters (text : string) (words sequence : list string) :
  (forall k, 1 <= k <= String.length text ->
     words !! k = Some (slice text (k - 1) k)) ->
  reads words 0 sequence ->
  Forall (fun w => w <> EmptyString) sequence ->
  join sequence = text ->
  sequence = per_character text.
Proof.
  intros Hw Hrd Hne Hjoin. rewrite per_character_slices.
  assert (G : forall sq k,
    reads words k sq -> Forall (fun w => w <> EmptyString) sq ->
    k + String.length (join sq) = String.length text ->
    sq = map (fun q => slice text q (q + 1))
             (seq k (String.length text - k))).
  { induction sq as [|w sq IH]; intros k Hr Hn Hl; simpl in *.
    - now replace (String.length text - k) with 0 by lia.
    - destruct Hr as [Ew Hr]. rewrite append_length in Hl.
      apply Forall_cons in Hn as [Hw0 Hn'].
      assert (1 <= String.length w)
        by (destruct w; simpl; [congruence|lia]).
      rewrite Hw in Ew by lia. injection Ew as Ew.
      assert (El : String.length w = 1).
      { rewrite <- Ew at 1. rewrite slice_length by lia. lia. }
      rewrite El in *.
      replace (String.length text - k)
        with (Datatypes.S (String.length text - (k + 1))) by lia.
      simpl. f_equal.
      + rewrite <- Ew. f_equal. lia.
      + replace (Datatypes.S k) with (k + 1) by lia.
        apply IH; [assumption|assumption|lia]. }
  rewrite (G sequence 0 Hrd Hne) by (rewrite Hjoin; lia).
  now rewrite Nat.sub_0_r.
Qed.

Section ZeroModel.
Context {F : Type} `{Arith F}.
Variable text : string.
Hypothesis zero_one : mul zero one = zero.
Hypothesis zero_zero : mul zero zero = zero.
Hypothesis zero_geb : geb zero zero = true.

Lemma dp_inner_zeros (i : nat) (tb : list F * list string) :
  1 <= i <= String.length text -> shape text tb ->
  fst tb !! 0 = Some one -> untouched text tb 0 ->
  exists tb',
    dp_inner table text i tb zeros = (Val tb', zeros) /\ shape text tb' /\
    fst tb' !! 0 = Some one /\ untouched text tb' 0.
Proof.
  intros Hi Hsh Hone Hun.
  destruct (dp_inner_rule table text
    (fun m tb' s => s = zeros /\ fst tb' !! i = Some zero /\
       snd tb' !! i = Some (slice text (if m is 0 then i - 1 else m - 1) i))
    i tb zeros) as (tb' & s' & E & Hsh' & Hag & -> & Eb & Ew);
    [lia|assumption| | |].
  - split; [reflexivity|]. now apply Hun; lia.
  - intros m best words s bm bi Hm [Hlb Hlw] Hag (-> & Eb & Ew) Em Ei.
    simpl in Hlb, Hlw, Eb, Ew. split; [reflexivity|].
    change (prob table zeros (slice text m i)) with (zero : F).
    rewrite Ei in Eb. injection Eb as ->.
    assert (Ez : mul zero bm = zero).
    { pose proof (proj1 (Hag m ltac:(lia))) as Eag. simpl in Eag.
      rewrite Em in Eag.
      destruct (decide (m = 0)) as [->|Hm0].
      - rewrite Hone in Eag. now injection Eag as ->.
      - rewrite (proj1 (Hun m ltac:(lia) ltac:(lia))) in Eag.
        now injection Eag as ->. }
    rewrite Ez, zero_geb. simpl.
    split; [apply list_lookup_insert_eq; lia|].
    rewrite list_lookup_insert_eq by lia.
    replace (m + 1) with (Datatypes.S m) by lia. simpl.
    now rewrite Nat.sub_0_r.
  - exists tb'. split; [assumption|]. split; [assumption|].
    split; [now rewrite (proj1 (Hag 0 ltac:(lia)))|].
    intros k _ Hk. destruct (decide (k = i)) as [->|Hne].
    + split; [assumption|]. rewrite Ew. destruct i; [lia|reflexivity].
    + destruct (Hag k Hne) as [-> ->]. apply Hun; lia.
Qed.

Lemma dp_loop_zeros :
  exists best words,
    dp_loop table text (init_best text, init_words text) zeros
      = (Val (best, words), zeros) /\
    shape text (best, words) /\
    best !! 0 = Some one /\ untouched text (best, words) 0.
Proof.
  destruct (dp_loop_rule table text
    (fun _ tb s => s = zeros /\ fst tb !! 0 = Some one /\
                   untouched text tb 0)
    (init_best text, init_words text) zeros)
    as ([best words] & s & E & Hsh & -> & Hone & Hun).
  - apply init_shape.
  - split; [reflexivity|]. split; [reflexivity|].
    intros k _ Hk. split; [now apply init_best_zero|].
    now apply init_words_char.
  - intros i tb s Hi Hsh (-> & Hone & Hun).
    destruct (decide (i = 0)) as [->|Hpos].
    + exists tb, zeros. now rewrite dp_inner_zero.
    + destruct (dp_inner_zeros i tb) as (tb' & E & Hsh' & Hone' & Hun');
        [lia|assumption|assumption|assumption|].
      now exists tb', zeros.
  - now exists best, words.
Qed.

End ZeroModel.

(** ** The effect of a call on the model *)

Lemma range_snoc (n : nat) : range 0 (n + 1) = range 0 n ++ [n].
Proof.
  unfold range. rewrite !Nat.sub_0_r.
  replace (n + 1) with (Datatypes.S n) by lia. now rewrite seq_S.
Qed.

Lemma after_lookups_read_only {F S} (P : Model F S) (ws : list string)
  (s : S) :
  read_only P -> after_lookups P ws s = s.
Proof.
  intros Hro. unfold after_lookups.
  induction ws as [|w ws IH]; simpl; [reflexivity|]. now rewrite Hro.
Qed.

Section Effect.
Context {F : Type} `{Arith F} {S : Type}.
Variable P : Model F S.
Variable text : string.

Lemma dp_loop_state (s : S) :
  exists tb,
    dp_loop P text (init_best text, init_words text) s
      = (Val tb, after_lookups P (queries text) s).
Proof.
  destruct (dp_loop_rule P text
    (fun i _ s' =>
       s' = after_lookups P
              (flat_map (fun i => map (fun j => slice text j i) (range 0 i))
                        (range 0 i)) s)
    (init_best text, init_words text) s) as (tb & s' & E & _ & ->).
  - apply init_shape.
  - reflexivity.
  - intros i tb s1 Hi Hsh Es1.
    destruct (dp_inner_rule P text
      (fun m _ s' =>
         s' = after_lookups P
                (flat_map (fun i => map (fun j => slice text j i) (range 0 i))
                          (range 0 i)
                 ++ map (fun j => slice text j i) (range 0 m)) s)
      i tb s1 Hi Hsh) as (tb' & s' & E & Hsh' & _ & ->).
    + simpl. now rewrite app_nil_r.
    + intros m best words s' bm bi Hm _ _ -> _ _.
      rewrite range_snoc, map_app, app_assoc. unfold after_lookups.
      now rewrite (fold_left_app _ _ [slice text m i]).
    + eexists tb', _. split; [exact E|]. split; [assumption|].
      now rewrite range_snoc, flat_map_app; simpl; rewrite app_nil_r.
  - now exists tb.
Qed.

End Effect.

(** * The laws of the two arithmetics *)

(** ** The rationals satisfy the laws *)

Lemma Q_le_iff (x y : Q) : le x y <-> (x <= y)%Q.
Proof. unfold le. simpl. apply Qle_bool_iff. Qed.

Lemma Q_unit_iff (x : Q) : unit_interval x <-> (0 <= x <= 1)%Q.
Proof. unfold unit_interval. now rewrite !Q_le_iff. Qed.

#[export] Instance Q_laws : ArithLaws Q.
Proof.
  split.
  - intros x y z _ _ _. rewrite !Q_le_iff. apply Qle_trans.
  - intros x y _ _. rewrite !Q_le_iff.
    destruct (Qlt_le_dec x y) as [Hlt|Hle]; [left|now right].
    now apply Qlt_le_weak.
  - now apply Q_unit_iff.
  - now apply Q_unit_iff.
  - intros x y. rewrite !Q_unit_iff. intros [Hx0 Hx1] [Hy0 Hy1]. split.
    + now apply Qmult_le_0_compat.
    + change 1%Q with (1 * 1)%Q. now apply Qmult_le_compat_nonneg.
  - intros a b c. rewrite !Q_unit_iff, !Q_le_iff.
    intros [Ha0 Ha1] [Hb0 Hb1] _ Hbc.
    apply Qmult_le_compat_nonneg; split; try assumption. apply Qle_refl.
  - intros [n d] _. simpl. unfold Qmult. simpl.
    now rewrite Z.mul_1_r, Pos.mul_1_r.
Qed.

(** ** Binary64 satisfies the laws

    The Standard Library specifies the primitive floats through
    [Prim2SF]: [mul_spec] and [leb_spec] give the product and the order
    on [spec_float], [Prim2SF_valid] the canonical form of every number.
    The product of two positive numbers of [[0, 1]] is [round_pos] of
    the product of the mantissas; its mantissa is shifted right and
    rounded to nearest-even ([round_pos_shift]), the rounding is monotone
    ([rnd_mono], [round_pos_mono]) and exact on [x * 1.0] ([rnd_exact]). *)

Module Binary64Facts.
Import Binary64.
Local Open Scope Z_scope.

Lemma digits2_pos_size (m : positive) : digits2_pos m = Pos.size m.
Proof. induction m as [m IH|m IH|]; simpl; congruence. Qed.

Lemma digits_log2 (m : positive) : digits m = Z.log2 (Z.pos m) + 1.
Proof.
  unfold digits. rewrite digits2_pos_size.
  destruct m as [m|m|]; simpl; lia.
Qed.

Lemma digits_bounds (m : positive) :
  2 ^ (digits m - 1) <= Z.pos m < 2 ^ digits m.
Proof.
  rewrite digits_log2. replace (Z.log2 (Z.pos m) + 1 - 1) with (Z.log2 (Z.pos m)) by lia.
  apply (Z.log2_spec (Z.pos m)). lia.
Qed.

Lemma digits_pos (m : positive) : 1 <= digits m.
Proof. unfold digits. lia. Qed.

Lemma digits_unique (m : positive) (d : Z) :
  2 ^ (d - 1) <= Z.pos m < 2 ^ d -> digits m = d.
Proof.
  intros Hd. rewrite digits_log2.
  assert (0 <= d - 1).
  { destruct (Z.le_gt_cases 0 (d - 1)) as [|Hneg]; [assumption|].
    destruct (Z.le_gt_cases 0 d) as [Hd0|Hd0].
    - assert (d = 0) as -> by lia. simpl in Hd. lia.
    - rewrite (Z.pow_neg_r 2 d) in Hd by lia. lia. }
  rewrite (Z.log2_unique (Z.pos m) (d - 1)); [lia|assumption|].
  now replace (Z.succ (d - 1)) with d by lia.
Qed.

(** ** Shifting right *)

Lemma shifted_shr_1 (M k : Z) (r : shr_record) (R : Z) :
  shifted M k r R -> exists R', shifted M (k + 1) (shr_1 r) R'.
Proof.
  intros (Hk & Hm & EM & HR & Hr & Hs).
  assert (Hpow : 2 ^ (k + 1) = 2 * 2 ^ k)
    by (rewrite Z.pow_add_r by lia; lia).
  assert (0 < 2 ^ k) by (apply Z.pow_pos_nonneg; lia).
  destruct r as [m r s]. cbn [shr_m shr_r shr_s] in *.
  assert (Hor : orb r s = true <-> R <> 0).
  { rewrite orb_true_iff, Hr, Hs. lia. }
  destruct m as [|[p|p|]|p]; try lia.
  - exists R. unfold shifted, shr_1. cbn [shr_m shr_r shr_s]. rewrite Hpow, Hor.
    repeat split; try lia; intros; try discriminate; lia.
  - exists (2 ^ k + R). unfold shifted, shr_1. cbn [shr_m shr_r shr_s]. rewrite Hpow, Hor.
    repeat split; try lia.
  - exists R. unfold shifted, shr_1. cbn [shr_m shr_r shr_s]. rewrite Hpow, Hor.
    repeat split; try lia; intros; try discriminate; lia.
  - exists (2 ^ k + R). unfold shifted, shr_1. cbn [shr_m shr_r shr_s]. rewrite Hpow, Hor.
    repeat split; try lia.
Qed.

Lemma shifted_iter (p : positive) (M k : Z) (r : shr_record) (R : Z) :
  shifted M k r R ->
  exists R', shifted M (k + Z.pos p) (SpecFloat.iter_pos shr_1 p r) R'.
Proof.
  revert k r R. induction p as [p IH|p IH|]; intros k r R Hs; simpl.
  - destruct (shifted_shr_1 _ _ _ _ Hs) as (R1 & H1).
    destruct (IH _ _ _ H1) as (R2 & H2).
    destruct (IH _ _ _ H2) as (R3 & H3).
    exists R3. now replace (k + Z.pos p~1) with (k + 1 + Z.pos p + Z.pos p) by lia.
  - destruct (IH _ _ _ Hs) as (R2 & H2).
    destruct (IH _ _ _ H2) as (R3 & H3).
    exists R3. now replace (k + Z.pos p~0) with (k + Z.pos p + Z.pos p) by lia.
  - exact (shifted_shr_1 _ _ _ _ Hs).
Qed.

Lemma shifted_round (M k : Z) (r : shr_record) (R : Z) :
  shifted M k r R ->
  round_nearest_even (shr_m r) (loc_of_shr_record r) = rnd M k.
Proof.
  intros (Hk & Hm & EM & HR & Hr & Hs).
  assert (0 < 2 ^ k) by (apply Z.pow_pos_nonneg; lia).
  assert (Eq : M / 2 ^ k = shr_m r)
    by (symmetry; apply (Z.div_unique_pos M (2 ^ k) (shr_m r) R); lia).
  assert (ER : M mod 2 ^ k = R)
    by (symmetry; apply (Z.mod_unique_pos M (2 ^ k) (shr_m r) R); lia).
  unfold rnd. rewrite Eq, ER.
  destruct r as [m [|] [|]]; cbn [shr_m shr_r shr_s loc_of_shr_record round_nearest_even] in *.
  - assert (2 ^ k <= 2 * R) by now apply Hr.
    assert (2 * R <> 2 ^ k) by now apply Hs.
    destruct (Z.ltb_spec (2 ^ k) (2 * R)); [reflexivity|lia].
  - assert (2 ^ k <= 2 * R) by now apply Hr.
    assert (~ (R <> 0 /\ 2 * R <> 2 ^ k)) by (rewrite <- Hs; discriminate).
    destruct (Z.ltb_spec (2 ^ k) (2 * R)); [lia|].
    destruct (Z.eqb_spec (2 * R) (2 ^ k)); [|lia]. simpl.
    rewrite <- Z.negb_even. now destruct (Z.even m).
  - assert (~ 2 ^ k <= 2 * R) by (rewrite <- Hr; discriminate).
    destruct (Z.ltb_spec (2 ^ k) (2 * R)); [lia|].
    destruct (Z.eqb_spec (2 * R) (2 ^ k)); [lia|]. reflexivity.
  - assert (~ 2 ^ k <= 2 * R) by (rewrite <- Hr; discriminate).
    destruct (Z.ltb_spec (2 ^ k) (2 * R)); [lia|].
    destruct (Z.eqb_spec (2 * R) (2 ^ k)); [lia|]. reflexivity.
Qed.

Lemma rnd_bounds (M k : Z) :
  M / 2 ^ k <= rnd M k <= M / 2 ^ k + 1.
Proof.
  unfold rnd. destruct (_ <? _); [lia|]. destruct (_ && _); lia.
Qed.

Lemma rnd_exact (n k : Z) : 0 <= k -> rnd (n * 2 ^ k) k = n.
Proof.
  intros Hk. assert (0 < 2 ^ k) by (apply Z.pow_pos_nonneg; lia).
  unfold rnd. rewrite Z.div_mul, Z.mod_mul by lia.
  destruct (Z.ltb_spec (2 ^ k) (2 * 0)); [lia|].
  destruct (Z.eqb_spec (2 * 0) (2 ^ k)); [lia|]. reflexivity.
Qed.

(** Rounding is monotone, also across two different shifts. *)
Lemma rnd_mono (M1 k1 M2 k2 : Z) :
  0 <= k1 -> 0 <= k2 ->
  M1 * 2 ^ k2 <= M2 * 2 ^ k1 ->
  rnd M1 k1 <= rnd M2 k2.
Proof.
  intros Hk1 Hk2 Hle.
  assert (HA : 0 < 2 ^ k1) by (apply Z.pow_pos_nonneg; lia).
  assert (HB : 0 < 2 ^ k2) by (apply Z.pow_pos_nonneg; lia).
  unfold rnd.
  pose proof (Z.div_mod M1 (2 ^ k1) ltac:(lia)) as E1.
  pose proof (Z.div_mod M2 (2 ^ k2) ltac:(lia)) as E2.
  pose proof (Z.mod_pos_bound M1 (2 ^ k1) HA) as B1.
  pose proof (Z.mod_pos_bound M2 (2 ^ k2) HB) as B2.
  set (q1 := M1 / 2 ^ k1) in *. set (R1 := M1 mod 2 ^ k1) in *.
  set (q2 := M2 / 2 ^ k2) in *. set (R2 := M2 mod 2 ^ k2) in *.
  set (A := 2 ^ k1) in *. set (B := 2 ^ k2) in *.
  assert (Hq : q1 <= q2).
  { destruct (Z.le_gt_cases q1 q2) as [|Hgt]; [assumption|]. exfalso.
    assert (0 <= (q1 - q2 - 1) * (A * B))
      by (apply Z.mul_nonneg_nonneg; nia).
    assert (R2 * A < B * A) by (apply Z.mul_lt_mono_pos_r; lia).
    assert (0 <= R1 * B) by (apply Z.mul_nonneg_nonneg; lia).
    rewrite E1, E2 in Hle. nia. }
  destruct (Z.eq_dec q1 q2) as [Eq|Hne].
  - assert (HR : R1 * B <= R2 * A).
    { rewrite E1, E2, Eq in Hle. nia. }
    assert (K1 : A < 2 * R1 -> B < 2 * R2).
    { intros H1. destruct (Z.le_gt_cases (2 * R2) B) as [H2|]; [|lia].
      assert (A * B < 2 * R1 * B) by (apply Z.mul_lt_mono_pos_r; lia).
      assert (2 * R2 * A <= B * A) by (apply Z.mul_le_mono_nonneg_r; lia).
      lia. }
    assert (K2 : A <= 2 * R1 -> B <= 2 * R2).
    { intros H1. destruct (Z.le_gt_cases B (2 * R2)) as [|H2]; [assumption|].
      assert (A * B <= 2 * R1 * B) by (apply Z.mul_le_mono_nonneg_r; lia).
      assert (2 * R2 * A < B * A) by (apply Z.mul_lt_mono_pos_r; lia).
      lia. }
    rewrite <- Eq.
    destruct (Z.ltb_spec A (2 * R1)) as [H1|H1].
    + destruct (Z.ltb_spec B (2 * R2)) as [H2|H2]; lia.
    + destruct (Z.eqb_spec (2 * R1) A) as [H1e|H1e]; cbn [andb].
      * destruct (Z.ltb_spec B (2 * R2)) as [H2|H2];
          [destruct (Z.odd q1); lia|].
        destruct (Z.eqb_spec (2 * R2) B) as [H2e|H2e]; cbn [andb];
          [destruct (Z.odd q1); lia|lia].
      * destruct (Z.ltb_spec B (2 * R2)) as [H2|H2]; [lia|].
        destruct (_ && _); lia.
  - assert (q1 + 1 <= q2) by lia.
    destruct (A <? 2 * R1), ((2 * R1 =? A) && Z.odd q1),
      (B <? 2 * R2), ((2 * R2 =? B) && Z.odd q2); lia.
Qed.

(** ** Rounding a positive mantissa to binary64 *)

Lemma fexp_fexp64 (x : Z) : fexp prec emax x = fexp64 x.
Proof. reflexivity. Qed.

Lemma round_pos_shift (m : positive) (e : Z) :
  e < fexp64 (digits m + e) -> fexp64 (digits m + e) <= 970 ->
  let E := fexp64 (digits m + e) in
  let n := rnd (Z.pos m) (E - e) in
  0 <= n <= 2 ^ 53 /\ (-1074 < E -> 2 ^ 52 <= n) /\
  round_pos m e = rounded n E.
Proof.
  intros Hshift Hmax E n.
  assert (Hk : 0 < E - e) by (unfold E; lia).
  assert (H2k : 0 < 2 ^ (E - e)) by (apply Z.pow_pos_nonneg; lia).
  pose proof (digits_bounds m) as [Hlo Hhi].
  pose proof (digits_pos m) as Hd.
  pose proof (rnd_bounds (Z.pos m) (E - e)) as Hn. fold n in Hn.
  assert (Hq0 : 0 <= Z.pos m / 2 ^ (E - e)) by (apply Z.div_pos; lia).
  assert (Hq : Z.pos m / 2 ^ (E - e) < 2 ^ 53).
  { apply Z.div_lt_upper_bound; [lia|].
    apply Z.lt_le_trans with (2 ^ digits m); [assumption|].
    rewrite <- Z.pow_add_r by lia. apply Z.pow_le_mono_r; [lia|].
    unfold E, fexp64. lia. }
  assert (Hnorm : -1074 < E -> 2 ^ 52 <= Z.pos m / 2 ^ (E - e)).
  { intros HE. apply Z.div_le_lower_bound; [lia|].
    apply Z.le_trans with (2 ^ (digits m - 1)); [|assumption].
    rewrite <- Z.pow_add_r by lia. apply Z.pow_le_mono_r; [lia|].
    unfold E, fexp64 in *. lia. }
  split; [lia|]. split; [intros HE; specialize (Hnorm HE); lia|].
  unfold round_pos, binary_round_aux, shr_fexp.
  cbn [Zdigits2 shr_record_of_loc]. fold (digits m).
  rewrite fexp_fexp64. fold E.
  destruct (E - e) as [|pk|pk] eqn:Ek; try lia.
  cbn [shr].
  destruct (shifted_iter pk (Z.pos m) 0
              {| shr_m := Z.pos m; shr_r := false; shr_s := false |} 0)
    as (R & Hsh).
  { unfold shifted. cbn [shr_m shr_r shr_s]. rewrite Z.pow_0_r.
    repeat split; try lia; intros; try discriminate; lia. }
  rewrite (shifted_round _ _ _ _ Hsh).
  change (0 + Z.pos pk) with (Z.pos pk). fold n. replace (e + Z.pos pk) with E by lia.
  rewrite fexp_fexp64. unfold rounded.
  destruct (Z.eqb_spec n 0) as [E0|Hn0].
  - rewrite E0. cbn [Zdigits2 shr_record_of_loc].
    destruct (fexp64 (0 + E) - E) as [|q|q] eqn:Eq2;
      [reflexivity| |reflexivity].
    exfalso. unfold E, fexp64 in *. lia.
  - destruct n as [|pn|pn] eqn:En; try lia.
    cbn [Zdigits2 shr_record_of_loc]. fold (digits pn).
    pose proof (digits_bounds pn) as [Hlo' Hhi'].
    pose proof (digits_pos pn) as Hd'.
    destruct (Z.eqb_spec (Z.pos pn) (2 ^ 53)) as [E53|Hn53].
    + assert (Epn : pn = (2 ^ 53)%positive) by (apply Pos2Z.inj; exact E53).
      subst pn.
      assert (Ed : digits (2 ^ 53) = 54) by reflexivity. rewrite Ed.
      replace (fexp64 (54 + E) - E) with 1
        by (unfold E, fexp64 in *; lia).
      change (shr {| shr_m := Z.pos (2 ^ 53); shr_r := false;
                     shr_s := false |} E 1)
        with ({| shr_m := Z.pos (2 ^ 52); shr_r := false;
                 shr_s := false |}, E + 1).
      cbn [shr_m]. change (emax - prec) with 971.
      destruct (Z.leb_spec (E + 1) 971) as [|Hbad];
        [reflexivity|]. unfold E in Hbad. lia.
    + assert (Hdn : digits pn <= 53).
      { assert (Hlt : 2 ^ (digits pn - 1) < 2 ^ 53) by lia.
        apply Z.pow_lt_mono_r_iff in Hlt; lia. }
      destruct (fexp64 (digits pn + E) - E) as [|q|q] eqn:Eq2.
      * cbn [shr shr_m]. change (emax - prec) with 971.
        destruct (Z.leb_spec E 971) as [|Hbad];
          [reflexivity|]. unfold E in Hbad. lia.
      * exfalso. unfold E, fexp64 in *. lia.
      * cbn [shr shr_m]. change (emax - prec) with 971.
        destruct (Z.leb_spec E 971) as [|Hbad];
          [reflexivity|]. unfold E in Hbad. lia.
Qed.

(** ** The order of the results *)

Lemma SFleb_finite (m1 m2 : positive) (e1 e2 : Z) :
  SFleb (S754_finite false m1 e1) (S754_finite false m2 e2) = true <->
  e1 < e2 \/ (e1 = e2 /\ (m1 <= m2)%positive).
Proof.
  unfold SFleb, SFcompare.
  destruct (Z.compare_spec e1 e2) as [Ee|Hlt|Hgt].
  - change (Pos.compare_cont Eq m1 m2) with (Pos.compare m1 m2).
    destruct (Pos.compare_spec m1 m2) as [Em|Hm|Hm]; split; intros Hx;
      try discriminate; try reflexivity; try lia.
  - split; [lia|reflexivity].
  - split; [discriminate|lia].
Qed.

Lemma rounded_le (n1 E1 n2 E2 : Z) :
  0 <= n1 <= 2 ^ 53 -> 0 <= n2 <= 2 ^ 53 ->
  (-1074 < E2 -> 2 ^ 52 <= n2) -> -1074 <= E1 ->
  E1 <= E2 -> (E1 = E2 -> n1 <= n2) ->
  SFleb (rounded n1 E1) (rounded n2 E2) = true.
Proof.
  intros H1 H2 Hnorm Hmin HE Hn.
  assert (P52 : 0 < 2 ^ 52) by reflexivity.
  assert (P53 : 2 ^ 53 = 2 * 2 ^ 52) by reflexivity.
  assert (Z52 : Z.pos (2 ^ 52) = 2 ^ 52) by reflexivity.
  unfold rounded.
  destruct (Z.eqb_spec n1 0) as [E10|N10].
  - destruct (n2 =? 0); [reflexivity|]. now destruct (n2 =? 2 ^ 53).
  - assert (N20 : n2 <> 0) by lia.
    destruct (Z.eqb_spec n2 0) as [|_]; [contradiction|].
    destruct (Z.eqb_spec n1 (2 ^ 53)) as [E1m|N1m];
      destruct (Z.eqb_spec n2 (2 ^ 53)) as [E2m|N2m];
      apply SFleb_finite.
    + destruct (Z.eq_dec E1 E2); [right|left]; lia.
    + destruct (Z.eq_dec (E1 + 1) E2) as [Ee|Ne]; [right|left; lia].
      split; [assumption|].
      change (Z.pos (2 ^ 52) <= Z.pos (Z.to_pos n2)).
      rewrite Z52, Z2Pos.id by lia. lia.
    + left. lia.
    + destruct (Z.eq_dec E1 E2) as [Ee|Ne]; [right|left; lia].
      split; [assumption|].
      change (Z.pos (Z.to_pos n1) <= Z.pos (Z.to_pos n2)).
      rewrite !Z2Pos.id by lia. lia.
Qed.

Lemma val_le_magnitude (m1 m2 : positive) (e1 e2 : Z) :
  val_le m1 e1 m2 e2 -> digits m1 + e1 <= digits m2 + e2.
Proof.
  unfold val_le. intros Hle.
  pose proof (digits_bounds m1) as [Hlo1 _].
  pose proof (digits_bounds m2) as [_ Hhi2].
  pose proof (digits_pos m1). pose proof (digits_pos m2).
  set (b := Z.min e1 e2) in *.
  assert (0 < 2 ^ (e1 - b)) by (apply Z.pow_pos_nonneg; lia).
  assert (0 < 2 ^ (e2 - b)) by (apply Z.pow_pos_nonneg; lia).
  assert (Hlt : 2 ^ (digits m1 - 1 + (e1 - b)) < 2 ^ (digits m2 + (e2 - b))).
  { rewrite !Z.pow_add_r by lia.
    apply Z.le_lt_trans with (Z.pos m1 * 2 ^ (e1 - b)).
    - apply Z.mul_le_mono_nonneg_r; lia.
    - apply Z.le_lt_trans with (Z.pos m2 * 2 ^ (e2 - b)); [assumption|].
      apply Z.mul_lt_mono_pos_r; lia. }
  apply Z.pow_lt_mono_r_iff in Hlt; lia.
Qed.

Lemma round_pos_mono (m1 m2 : positive) (e1 e2 : Z) :
  e1 < fexp64 (digits m1 + e1) -> e2 < fexp64 (digits m2 + e2) ->
  fexp64 (digits m2 + e2) <= 970 ->
  val_le m1 e1 m2 e2 ->
  SFleb (round_pos m1 e1) (round_pos m2 e2) = true.
Proof.
  intros Hs1 Hs2 Hmax Hle.
  pose proof (val_le_magnitude _ _ _ _ Hle) as Hmag.
  assert (HE : fexp64 (digits m1 + e1) <= fexp64 (digits m2 + e2))
    by (unfold fexp64; lia).
  destruct (round_pos_shift m1 e1 Hs1 ltac:(lia)) as (Hn1 & _ & ->).
  destruct (round_pos_shift m2 e2 Hs2 Hmax) as (Hn2 & Hnorm2 & ->).
  apply rounded_le; try assumption; [unfold fexp64; lia|].
  intros EE. apply rnd_mono; [lia|lia|].
  set (E := fexp64 (digits m2 + e2)) in *. rewrite EE in *.
  unfold val_le in Hle. set (b := Z.min e1 e2) in *.
  assert (X1 : 2 ^ (E - e2) = 2 ^ (e1 - b) * 2 ^ (E - e1 - e2 + b))
    by (rewrite <- Z.pow_add_r by lia; f_equal; lia).
  assert (X2 : 2 ^ (E - e1) = 2 ^ (e2 - b) * 2 ^ (E - e1 - e2 + b))
    by (rewrite <- Z.pow_add_r by lia; f_equal; lia).
  rewrite X1, X2, !Z.mul_assoc.
  apply Z.mul_le_mono_nonneg_r; [|assumption].
  apply Z.pow_nonneg. lia.
Qed.

(** ** Canonical mantissas *)

Lemma valid_canonical (s : bool) (m : positive) (e : Z) :
  valid_binary (S754_finite s m e) = true -> canonical m e.
Proof.
  unfold valid_binary, SpecFloat.valid_binary, bounded, canonical_mantissa.
  intros Hv. apply andb_true_iff in Hv as [Hc _].
  apply Z.eqb_eq in Hc. rewrite fexp_fexp64 in Hc. exact Hc.
Qed.

Lemma canonical_facts (m : positive) (e : Z) :
  canonical m e ->
  -1074 <= e /\ digits m <= 53 /\ (-1074 < e -> digits m = 53).
Proof. unfold canonical, fexp64. lia. Qed.

(** The order of canonical numbers is the order of their values. *)
Lemma canonical_val_le (m1 m2 : positive) (e1 e2 : Z) :
  canonical m1 e1 -> canonical m2 e2 ->
  e1 < e2 \/ (e1 = e2 /\ (m1 <= m2)%positive) ->
  val_le m1 e1 m2 e2.
Proof.
  intros H1 H2 Hlex. unfold val_le.
  apply canonical_facts in H1 as (Hmin1 & Hd1 & _).
  apply canonical_facts in H2 as (_ & _ & Hn2).
  destruct Hlex as [Hlt|[-> Hm]].
  - rewrite Z.min_l by lia. rewrite Z.sub_diag, Z.pow_0_r, Z.mul_1_r.
    pose proof (digits_bounds m1) as [_ Hhi1].
    pose proof (digits_bounds m2) as [Hlo2 _].
    rewrite Hn2 in Hlo2 by lia.
    assert (2 ^ digits m1 <= 2 ^ 53) by (apply Z.pow_le_mono_r; lia).
    assert (2 ^ 1 <= 2 ^ (e2 - e1)) by (apply Z.pow_le_mono_r; lia).
    change (2 ^ 1) with 2 in *. change (2 ^ (53 - 1)) with (2 ^ 52) in *.
    assert (P53 : 2 ^ 53 = 2 ^ 52 * 2) by reflexivity.
    assert (2 ^ 52 * 2 <= Z.pos m2 * 2 ^ (e2 - e1)).
    { apply Z.mul_le_mono_nonneg; lia. }
    lia.
  - rewrite Z.min_id, Z.sub_diag, Z.pow_0_r, !Z.mul_1_r. exact Hm.
Qed.

Lemma val_le_mul (m m1 m2 : positive) (e e1 e2 : Z) :
  val_le m1 e1 m2 e2 -> val_le (m * m1) (e + e1) (m * m2) (e + e2).
Proof.
  unfold val_le. intros Hle.
  replace (Z.min (e + e1) (e + e2)) with (e + Z.min e1 e2) by lia.
  replace (e + e1 - (e + Z.min e1 e2)) with (e1 - Z.min e1 e2) by lia.
  replace (e + e2 - (e + Z.min e1 e2)) with (e2 - Z.min e1 e2) by lia.
  rewrite !Pos2Z.inj_mul, <- !Z.mul_assoc.
  apply Z.mul_le_mono_nonneg_l; [lia|assumption].
Qed.

Lemma digits_mul (m1 m2 : positive) :
  digits m1 + digits m2 - 1 <= digits (m1 * m2) <= digits m1 + digits m2.
Proof.
  pose proof (digits_bounds m1) as [Hlo1 Hhi1].
  pose proof (digits_bounds m2) as [Hlo2 Hhi2].
  pose proof (digits_bounds (m1 * m2)) as [Hlo Hhi].
  pose proof (digits_pos m1). pose proof (digits_pos m2).
  pose proof (digits_pos (m1 * m2)).
  rewrite Pos2Z.inj_mul in Hlo, Hhi.
  assert (0 < 2 ^ (digits m1 - 1)) by (apply Z.pow_pos_nonneg; lia).
  assert (0 < 2 ^ (digits m2 - 1)) by (apply Z.pow_pos_nonneg; lia).
  assert (L : 2 ^ (digits m1 - 1 + (digits m2 - 1)) < 2 ^ digits (m1 * m2)).
  { rewrite Z.pow_add_r by lia.
    apply Z.le_lt_trans with (Z.pos m1 * Z.pos m2); [|assumption].
    apply Z.mul_le_mono_nonneg; lia. }
  assert (U : 2 ^ (digits (m1 * m2) - 1) < 2 ^ (digits m1 + digits m2)).
  { rewrite (Z.pow_add_r 2 (digits m1)) by lia.
    apply Z.le_lt_trans with (Z.pos m1 * Z.pos m2); [assumption|].
    apply Z.mul_lt_mono_nonneg; lia. }
  apply Z.pow_lt_mono_r_iff in L; [|lia|lia].
  apply Z.pow_lt_mono_r_iff in U; lia.
Qed.

(** ** The numbers of [[0, 1]] *)

Lemma at_most_one_facts (m : positive) (e : Z) :
  at_most_one m e ->
  -1074 <= e <= -52 /\ digits m <= 53 /\ (-1074 < e -> digits m = 53).
Proof.
  intros [Hc Hle]. apply canonical_facts in Hc. lia.
Qed.

(** The product of two such numbers is shifted right before it is
    rounded, and does not overflow. *)
Lemma product_shift (m1 m2 : positive) (e1 e2 : Z) :
  at_most_one m1 e1 -> at_most_one m2 e2 ->
  e1 + e2 < fexp64 (digits (m1 * m2) + (e1 + e2)) /\
  fexp64 (digits (m1 * m2) + (e1 + e2)) <= 970.
Proof.
  intros H1 H2.
  apply at_most_one_facts in H1 as (He1 & Hd1 & Hn1).
  apply at_most_one_facts in H2 as (He2 & Hd2 & Hn2).
  pose proof (digits_mul m1 m2). unfold fexp64. lia.
Qed.

(** ** Zero and positive numbers *)

Lemma SFleb_zero_l (s : bool) (x : spec_float) :
  nonneg x -> SFleb (S754_zero s) x = true.
Proof. destruct x as [| | |[|] m e]; simpl; intros Hx; now try contradiction. Qed.

Lemma SFleb_trans (x y z : spec_float) :
  nonneg x -> nonneg y -> nonneg z ->
  SFleb x y = true -> SFleb y z = true -> SFleb x z = true.
Proof.
  intros Hx Hy Hz Hxy Hyz.
  destruct x as [sx| | |[|] mx ex]; try contradiction;
    destruct y as [sy| | |[|] my ey]; try contradiction;
    destruct z as [sz| | |[|] mz ez]; try contradiction;
    try reflexivity; try discriminate.
  apply SFleb_finite in Hxy, Hyz. apply SFleb_finite. lia.
Qed.

Lemma SFleb_total (x y : spec_float) :
  nonneg x -> nonneg y -> SFleb x y = true \/ SFleb y x = true.
Proof.
  intros Hx Hy.
  destruct x as [sx| | |[|] mx ex]; try contradiction;
    destruct y as [sy| | |[|] my ey]; try contradiction;
    try (now left); try (now right).
  rewrite !SFleb_finite. lia.
Qed.

Lemma rounded_nonneg (n E : Z) : nonneg (rounded n E).
Proof.
  unfold rounded. destruct (n =? 0); [exact I|].
  destruct (n =? 2 ^ 53); exact I.
Qed.

(** ** The laws on binary64 *)

Lemma Prim2SF_one : Prim2SF 1 = S754_finite false (2 ^ 52) (-52).
Proof. reflexivity. Qed.

Lemma Prim2SF_zero : Prim2SF 0 = S754_zero false.
Proof. reflexivity. Qed.

Lemma fle_spec (x y : float) :
  fle x y <-> SFleb (Prim2SF x) (Prim2SF y) = true.
Proof. unfold fle. now rewrite leb_spec. Qed.

(** A float of [[0, 1]] is a zero or a canonical positive number that is
    at most 1.0. *)
Lemma funit_cases (x : float) :
  funit x ->
  (exists s, Prim2SF x = S754_zero s) \/
  (exists m e, Prim2SF x = S754_finite false m e /\ at_most_one m e).
Proof.
  intros [H0 H1]. apply fle_spec in H0, H1.
  rewrite Prim2SF_zero in H0. rewrite Prim2SF_one in H1.
  pose proof (Prim2SF_valid x) as Hv.
  destruct (Prim2SF x) as [s|s| |s m e] eqn:Ex.
  - left. now exists s.
  - destruct s; discriminate.
  - discriminate.
  - destruct s; [discriminate|]. right. exists m, e.
    split; [reflexivity|]. split; [now apply valid_canonical in Hv|].
    now apply SFleb_finite in H1.
Qed.

Lemma funit_nonneg (x : float) : funit x -> nonneg (Prim2SF x).
Proof.
  intros Hx. destruct (funit_cases x Hx) as [(s & ->)|(m & e & -> & _)];
    exact I.
Qed.

Lemma one_at_most_one : at_most_one (2 ^ 52) (-52).
Proof. split; [reflexivity|]. right. split; [reflexivity|]. lia. Qed.

(** The product of two floats of [[0, 1]]. *)
Lemma mul_cases (x y : float) :
  funit x -> funit y ->
  (exists s, Prim2SF (x * y) = S754_zero s /\
     ((exists sx, Prim2SF x = S754_zero sx) \/
      (exists sy, Prim2SF y = S754_zero sy))) \/
  (exists mx ex my ey,
     Prim2SF x = S754_finite false mx ex /\ at_most_one mx ex /\
     Prim2SF y = S754_finite false my ey /\ at_most_one my ey /\
     Prim2SF (x * y) = round_pos (mx * my) (ex + ey)).
Proof.
  intros Hx Hy. rewrite mul_spec. unfold SF64mul.
  destruct (funit_cases x Hx) as [(sx & Ex)|(mx & ex & Ex & Hmx)];
    destruct (funit_cases y Hy) as [(sy & Ey)|(my & ey & Ey & Hmy)];
    rewrite Ex, Ey; cbn [SFmul].
  - left. eexists. split; [reflexivity|]. left. now exists sx.
  - left. eexists. split; [reflexivity|]. left. now exists sx.
  - left. eexists. split; [reflexivity|]. right. now exists sy.
  - right. exists mx, ex, my, ey. repeat split; try apply Hmx; apply Hmy.
Qed.

Lemma mul_nonneg (x y : float) :
  funit x -> funit y -> nonneg (Prim2SF (x * y)).
Proof.
  intros Hx Hy.
  destruct (mul_cases x y Hx Hy)
    as [(s & -> & _)|(mx & ex & my & ey & _ & H1 & _ & H2 & ->)];
    [exact I|].
  destruct (product_shift mx my ex ey H1 H2) as [Hs Hm].
  destruct (round_pos_shift _ _ Hs Hm) as (_ & _ & ->).
  apply rounded_nonneg.
Qed.

Lemma fle_trans (x y z : float) :
  nonneg (Prim2SF x) -> nonneg (Prim2SF y) -> nonneg (Prim2SF z) ->
  fle x y -> fle y z -> fle x z.
Proof. rewrite !fle_spec. apply SFleb_trans. Qed.

Lemma fmul_mono (a b c : float) :
  funit a -> funit b -> funit c -> fle b c -> fle (a * b) (a * c).
Proof.
  intros Ha Hb Hc Hbc. apply fle_spec. apply fle_spec in Hbc.
  pose proof (mul_nonneg a c Ha Hc) as Hac.
  destruct (mul_cases a b Ha Hb)
    as [(s & -> & _)|(ma & ea & mb & eb & Ea & Hma & Eb & Hmb & ->)].
  - now apply SFleb_zero_l.
  - destruct (mul_cases a c Ha Hc)
      as [(s & _ & [(sa & Ea')|(sc & Ec)])
         |(ma' & ea' & mc & ec & Ea' & _ & Ec & Hmc & ->)].
    + rewrite Ea in Ea'. discriminate.
    + rewrite Eb, Ec in Hbc. discriminate.
    + rewrite Ea in Ea'. injection Ea' as <- <-.
      rewrite Eb, Ec in Hbc. apply SFleb_finite in Hbc.
      destruct (product_shift ma mb ea eb Hma Hmb) as [Hs1 _].
      destruct (product_shift ma mc ea ec Hma Hmc) as [Hs2 Hm2].
      apply round_pos_mono; try assumption.
      apply val_le_mul, canonical_val_le; [apply Hmb|apply Hmc|assumption].
Qed.

Lemma fmul_one_r (x : float) : funit x -> (x * 1)%float = x.
Proof.
  intros Hx. apply Prim2SF_inj. rewrite mul_spec, Prim2SF_one.
  unfold SF64mul.
  destruct (funit_cases x Hx) as [(s & ->)|(m & e & -> & Hm)];
    cbn [SFmul xorb]; [now destruct s|].
  fold (round_pos (m * 2 ^ 52) (e + -52)).
  destruct (product_shift m (2 ^ 52) e (-52) Hm one_at_most_one)
    as [Hs Hmax].
  destruct (round_pos_shift _ _ Hs Hmax) as (_ & _ & ->).
  destruct Hm as [Hc Hle]. pose proof (canonical_facts m e Hc) as (He & Hd & _).
  assert (Ed : digits (m * 2 ^ 52) = digits m + 52).
  { apply digits_unique. pose proof (digits_bounds m) as [Hlo Hhi].
    pose proof (digits_pos m).
    rewrite Pos2Z.inj_mul.
    change (Z.pos (2 ^ 52)) with (2 ^ 52).
    replace (digits m + 52 - 1) with (digits m - 1 + 52) by lia.
    rewrite !Z.pow_add_r by lia. split.
    - apply Z.mul_le_mono_nonneg_r; [apply Z.pow_nonneg; lia|assumption].
    - apply Z.mul_lt_mono_pos_r; [apply Z.pow_pos_nonneg; lia|assumption]. }
  rewrite Ed.
  replace (fexp64 (digits m + 52 + (e + -52))) with e
    by (unfold canonical in Hc; rewrite <- Hc at 1; f_equal; lia).
  replace (e - (e + -52)) with 52 by lia.
  rewrite Pos2Z.inj_mul. change (Z.pos (2 ^ 52)) with (2 ^ 52).
  rewrite rnd_exact by lia. unfold rounded.
  destruct (Z.eqb_spec (Z.pos m) 0) as [|_]; [lia|].
  destruct (Z.eqb_spec (Z.pos m) (2 ^ 53)) as [E53|_].
  - pose proof (digits_bounds m) as [Hlo Hhi].
    assert (2 ^ digits m <= 2 ^ 53) by (apply Z.pow_le_mono_r; lia). lia.
  - reflexivity.
Qed.

Lemma fmul_unit (x y : float) : funit x -> funit y -> funit (x * y).
Proof.
  intros Hx Hy. pose proof (mul_nonneg x y Hx Hy) as Hn. split.
  - apply fle_spec. rewrite Prim2SF_zero. now apply SFleb_zero_l.
  - assert (H1 : funit 1) by (split; reflexivity).
    apply fle_trans with (x * 1)%float.
    + assumption.
    + now apply mul_nonneg.
    + now rewrite Prim2SF_one.
    + apply fmul_mono; try assumption. apply Hy.
    + rewrite fmul_one_r by assumption. apply Hx.
Qed.

Lemma fmul_comm (x y : float) : (x * y)%float = (y * x)%float.
Proof.
  apply Prim2SF_inj. rewrite !mul_spec. unfold SF64mul.
  destruct (Prim2SF x) as [sx|sx| |sx mx ex],
    (Prim2SF y) as [sy|sy| |sy my ey]; cbn [SFmul];
    rewrite ?(xorb_comm sy sx); try reflexivity.
  now rewrite (Pos.mul_comm my mx), (Z.add_comm ey ex).
Qed.

End Binary64Facts.

(** Binary64 satisfies the laws. *)
#[export] Instance float_laws : ArithLaws float.
Proof.
  split.
  - intros x y z Hx Hy Hz.
    apply (Binary64Facts.fle_trans x y z);
      now apply Binary64Facts.funit_nonneg.
  - intros x y Hx Hy.
    destruct (Binary64Facts.SFleb_total (Prim2SF x) (Prim2SF y)) as [Hle|Hle];
      try (now apply Binary64Facts.funit_nonneg);
      [left|right]; now apply Binary64Facts.fle_spec.
  - split; reflexivity.
  - split; reflexivity.
  - exact Binary64Facts.fmul_unit.
  - exact Binary64Facts.fmul_mono.
  - exact Binary64Facts.fmul_one_r.
Qed.

(** In binary64 the joint probability is the product of the
    probabilities of the words from left to right, as
    [((1.0 * p w1) * p w2) * ...] computes it. *)
Lemma joint_binary64 (p : string -> float) (ws : list string) :
  joint p ws = fold_left (fun acc w => (acc * p w)%float) ws 1%float.
Proof.
  unfold joint. simpl. generalize 1%float.
  induction ws as [|w ws IH]; intros acc; simpl; [reflexivity|].
  now rewrite IH, Binary64Facts.fmul_comm.
Qed.

(** * The properties of [viterbi_segment] *)

Lemma positive_prob_unit {F} `{Arith F} (x : F) :
  positive_prob x -> unit_interval x.
Proof. intros [[H0 _] H1]. now split. Qed.

(** C1. With a read-only model whose probabilities are in (0, 1], after
    the dynamic programming [best[0]] is 1.0 and every [best[i]] is the
    maximum, over the segmentations of the first [i] characters, of the
    product of the probabilities of the words; the probability the call
    returns is [best[n]], the maximum over the segmentations of [text]. *)
Theorem viterbi_best_is_maximum {F} `{ArithLaws F} {S}
  (P : Model F S) (text : string) (s : S) :
  read_only P ->
  (forall w, positive_prob (prob P s w)) ->
  exists best words,
    dp_loop P text (init_best text, init_words text) s
      = (Val (best, words), s) /\
    best !! 0 = Some one /\
    (forall i, i <= String.length text ->
       exists b, best !! i = Some b /\
                 best_joint (prob P s) (slice text 0 i) b) /\
    (forall fuel, String.length text <= fuel ->
       exists sequence p,
         viterbi_segment P fuel text s = (Val (sequence, p), s) /\
         best !! String.length text = Some p /\
         best_joint (prob P s) text p).
Proof.
  intros Hro Hpos.
  assert (Hunit : forall w, unit_interval (prob P s w))
    by (intros w; apply positive_prob_unit, Hpos).
  destruct (dp_loop_optimal P text s Hro Hunit)
    as (best & words & E & Hsh & Hone & Hopt).
  destruct (dp_loop_suffixes P text s)
    as (best' & words' & s' & E' & _ & Hsuf).
  rewrite E in E'. injection E' as <- <- <-.
  exists best, words. split; [assumption|]. split; [assumption|].
  split; [assumption|]. intros fuel Hfuel.
  destruct (viterbi_segment_run P text fuel s s best words E Hsh Hsuf Hfuel)
    as (sequence & p & Erun & _ & Ep & _).
  exists sequence, p. split; [assumption|]. split; [assumption|].
  destruct (Hopt (String.length text) ltac:(lia)) as (b & Eb & Hb).
  rewrite Ep in Eb. injection Eb as <-. now rewrite slice_all in Hb.
Qed.

(** C2. For every text and every model, the words the call returns,
    joined in order, are the text. *)
Theorem viterbi_segment_reconstructs {F} `{Arith F} {S}
  (P : Model F S) (text : string) (s : S) (fuel : nat) :
  String.length text <= fuel ->
  exists sequence p s',
    viterbi_segment P fuel text s = (Val (sequence, p), s') /\
    join sequence = text.
Proof.
  intros Hfuel.
  destruct (dp_loop_suffixes P text s) as (best & words & s' & E & Hsh & Hsuf).
  destruct (viterbi_segment_run P text fuel s s' best words E Hsh Hsuf Hfuel)
    as (sequence & p & Erun & _ & _ & Hjoin & _).
  now exists sequence, p, s'.
Qed.

(** C3, as stated, fails: on ["ab"] the segmentations [["ab"]] and
    [["a"; "b"]] tie at 0.25, and the call returns [["a"; "b"]], whose
    final word is the shorter one. *)
Lemma longest_final_word_loses :
  ~ longest_final_word_wins quarter_half "ab".
Proof.
  intros Hstated.
  specialize (Hstated 2 ["a"; "b"]%string 0.25%float ["ab"%string]
                "b"%string "ab"%string).
  assert (Hlen : String.length "ab" <= String.length "b").
  { apply Hstated; try reflexivity.
    split; [reflexivity|]. repeat constructor. discriminate. }
  simpl in Hlen. lia.
Qed.

(** C3, amended. With a read-only model, at every end position [i] the
    last candidate that passes the test [newbest >= best[i]] stays in
    the tables: [words[i]] is [text[j:i]] for a start [j], [best[i]] is
    its candidate [P[text[j:i]] * best[j]] (unless no candidate passed),
    and a candidate [text[j':i]] that ties with or beats the final
    [best[i]] starts at or before [j], so it is at least as long as
    [words[i]]: among tied final words the shortest is kept. Every word
    of the sequence the call returns is the entry of [words] at the
    position where the word ends. Hence, when the arithmetic satisfies
    the laws and the probabilities are in [[0, 1]], the final word of the
    sequence the call returns is at most as long as the final word of
    any segmentation of [text] that ties with it in joint probability. *)
Theorem shortest_final_word_wins {F} `{Arith F} {S}
  (P : Model F S) (text : string) (s : S) (fuel : nat) :
  read_only P -> String.length text <= fuel ->
  exists best words sequence p,
    dp_loop P text (init_best text, init_words text) s
      = (Val (best, words), s) /\
    viterbi_segment P fuel text s = (Val (sequence, p), s) /\
    reads words 0 sequence /\
    (forall i, 1 <= i <= String.length text ->
       exists j bi,
         j < i /\ words !! i = Some (slice text j i) /\
         best !! i = Some bi /\
         (forall j' bj', j' < i -> best !! j' = Some bj' ->
            geb (mul (prob P s (slice text j' i)) bj') bi = true ->
            j' <= j /\
            String.length (slice text j i)
              <= String.length (slice text j' i)) /\
         ((exists bj, best !! j = Some bj /\
                      bi = mul (prob P s (slice text j i)) bj) \/
          (forall j' bj', j' < i -> best !! j' = Some bj' ->
             geb (mul (prob P s (slice text j' i)) bj') zero = false))) /\
    (ArithLaws F -> (forall w, unit_interval (prob P s w)) ->
     forall ws w w',
       segmentation text ws -> joint (prob P s) ws = p ->
       last sequence = Some w -> last ws = Some w' ->
       String.length w <= String.length w').
Proof.
  intros Hro Hfuel.
  destruct (dp_loop_last_wins P text s Hro)
    as (best & words & E & Hsh & Hlw).
  destruct (dp_loop_suffixes P text s)
    as (best' & words' & s' & E' & _ & Hsuf).
  rewrite E in E'. injection E' as <- <- <-.
  destruct (viterbi_segment_run P text fuel s s best words E Hsh Hsuf Hfuel)
    as (sequence & p & Erun & _ & Ep & Hjoin & _ & Hrd).
  assert (Htie : forall i, 1 <= i <= String.length text ->
    exists j bi,
      j < i /\ words !! i = Some (slice text j i) /\
      best !! i = Some bi /\
      (forall j' bj', j' < i -> best !! j' = Some bj' ->
         geb (mul (prob P s (slice text j' i)) bj') bi = true ->
         j' <= j /\
         String.length (slice text j i)
           <= String.length (slice text j' i)) /\
      ((exists bj, best !! j = Some bj /\
                   bi = mul (prob P s (slice text j i)) bj) \/
       (forall j' bj', j' < i -> best !! j' = Some bj' ->
          geb (mul (prob P s (slice text j' i)) bj') zero = false))).
  { intros i Hi.
    destruct (Hlw i Hi) as (j & bi & Hj & Ew & Eb & Hlater & Hor).
    simpl in Ew, Eb, Hlater, Hor.
    exists j, bi. split; [assumption|]. split; [assumption|].
    split; [assumption|]. split.
    - intros j' bj' Hj' E' Hge.
      assert (j' <= j).
      { destruct (decide (j' <= j)) as [|Hgt]; [assumption|].
        rewrite (Hlater j' bj') in Hge; [discriminate|lia|assumption]. }
      split; [assumption|]. rewrite !slice_length by lia. lia.
    - destruct Hor as [Hacc|(_ & _ & Hnone)]; [now left|now right]. }
  exists best, words, sequence, p. split; [assumption|].
  split; [assumption|]. split; [assumption|]. split; [assumption|].
  intros Hlaws Hunit ws w w' [Ews Hne] Hjoint Hlast Hlast'.
  destruct (decide (String.length text = 0)) as [Hn0|Hn].
  { rewrite (join_length_nil ws Hne) in Hlast' by now rewrite Ews.
    discriminate. }
  destruct (segmentation_snoc_inv text ws (String.length text))
    as (ws' & j' & Hj' & -> & Hseg'); [lia|now rewrite slice_all|].
  rewrite last_snoc in Hlast'. injection Hlast' as <-.
  destruct (dp_loop_optimal P text s Hro Hunit)
    as (best' & words' & E' & _ & _ & Hopt).
  rewrite E in E'. injection E' as <- <-.
  destruct (Hopt j' ltac:(lia)) as (bj' & Ej' & Hbj').
  destruct (Htie (String.length text) ltac:(lia))
    as (j & bi & Hj & Ew & Eb & Hshort & _).
  rewrite Ep in Eb. injection Eb as <-.
  pose proof (reads_last words sequence 0 w Hrd Hlast) as Ew'.
  rewrite Hjoin in Ew'. simpl in Ew'. rewrite Ew in Ew'.
  injection Ew' as <-.
  apply (Hshort j' bj' Hj' Ej').
  rewrite <- Hjoint, (joint_snoc (prob P s)).
  apply mul_mono; [apply Hunit|now apply joint_unit| |now apply Hbj'].
  now apply (best_joint_unit P s Hunit) in Hbj'.
Qed.

(** C4, as stated, fails: on ["a"] the entry [words[1]] is ["a"]. *)
Lemma initial_word_not_empty :
  ~ initial_tables_with_sentinel (F := float) "a".
Proof.
  intros (_ & _ & Hwords). specialize (Hwords 1 ltac:(simpl; lia)).
  discriminate Hwords.
Qed.

(** C4, amended. Both tables have [n + 1] entries; [best[0]] is 1.0 and
    the other entries of [best] are 0.0; [words[0]] is the empty word
    and [words[i]], for [i] from 1 on, is the character [text[i-1]]. *)
Theorem initial_tables {F} `{Arith F} (text : string) :
  length (init_best text : list F) = String.length text + 1 /\
  length (init_words text) = String.length text + 1 /\
  (init_best text : list F) !! 0 = Some one /\
  init_words text !! 0 = Some EmptyString /\
  forall i, 1 <= i <= String.length text ->
    (init_best text : list F) !! i = Some zero /\
    init_words text !! i = Some (slice text (i - 1) i) /\
    String.length (slice text (i - 1) i) = 1.
Proof.
  destruct (init_shape (F := F) text) as [Hb Hw].
  split; [exact Hb|]. split; [exact Hw|].
  split; [reflexivity|]. split; [reflexivity|]. intros i Hi.
  split; [now apply init_best_zero|].
  split; [now apply init_words_char|].
  rewrite slice_length by lia. lia.
Qed.

(** C5. With a read-only model whose probabilities are in (0, 1], the
    probability the call returns is in (0, 1] when the text is not
    empty, and is 1.0 when it is. *)
Theorem viterbi_probability_bounds {F} `{ArithLaws F} {S}
  (P : Model F S) (text : string) (s : S) (fuel : nat) :
  read_only P ->
  (forall w, positive_prob (prob P s w)) ->
  String.length text <= fuel ->
  exists sequence p,
    viterbi_segment P fuel text s = (Val (sequence, p), s) /\
    (text <> EmptyString -> lt zero p /\ le p one) /\
    (text = EmptyString -> p = one).
Proof.
  intros Hro Hpos Hfuel.
  assert (Hunit : forall w, unit_interval (prob P s w))
    by (intros w; apply positive_prob_unit, Hpos).
  destruct (dp_loop_optimal P text s Hro Hunit)
    as (best & words & E & Hsh & Hone & Hopt).
  destruct (dp_loop_suffixes P text s)
    as (best' & words' & s' & E' & _ & Hsuf).
  rewrite E in E'. injection E' as <- <- <-.
  destruct (viterbi_segment_run P text fuel s s best words E Hsh Hsuf Hfuel)
    as (sequence & p & Erun & _ & Ep & _).
  exists sequence, p. split; [assumption|].
  destruct (Hopt (String.length text) ltac:(lia)) as (b & Eb & Hb).
  rewrite Ep in Eb. injection Eb as <-. rewrite slice_all in Hb. split.
  - intros Hne.
    assert (Hp : unit_interval p) by now apply (best_joint_unit P s) in Hb.
    split; [|apply Hp].
    assert (Hseg : segmentation text [text]).
    { split; [apply append_empty_r|]. now repeat constructor. }
    apply Hb in Hseg. unfold joint in Hseg. simpl in Hseg.
    rewrite mul_one_r in Hseg by apply Hunit.
    destruct (Hpos text) as [[_ Hnot] _].
    split; [apply Hp|].
    destruct (geb zero p) eqn:Ez; [|reflexivity].
    assert (Hbad : le (prob P s text) zero).
    { apply le_trans with p; try assumption; [apply Hunit|apply unit_zero]. }
    unfold le in Hbad. congruence.
  - intros ->. simpl in Ep. rewrite Hone in Ep. now injection Ep.
Qed.

(** C6. On the empty string the call returns the empty sequence and the
    probability 1.0, whatever the model. *)
Theorem viterbi_segment_empty {F} `{Arith F} {S}
  (P : Model F S) (s : S) (fuel : nat) :
  viterbi_segment P fuel EmptyString s = (Val ([], one), s).
Proof. destruct fuel; reflexivity. Qed.

(** C7. With a model that its lookups leave as it is, a second call
    returns what the first call returned. *)
Theorem viterbi_segment_deterministic {F} `{Arith F} {S}
  (P : Model F S) (text : string) (s : S) (fuel : nat) :
  read_only P -> String.length text <= fuel ->
  let first := viterbi_segment P fuel text s in
  let second := viterbi_segment P fuel text (snd first) in
  fst second = fst first /\ exists r, fst first = Val r.
Proof.
  intros Hro Hfuel.
  destruct (dp_loop_suffixes P text s) as (best & words & s' & E & Hsh & Hsuf).
  destruct (viterbi_segment_run P text fuel s s' best words E Hsh Hsuf Hfuel)
    as (sequence & p & Erun & _).
  destruct (dp_loop_state P text s) as (tb & E').
  rewrite E in E'. injection E' as _ Es.
  rewrite after_lookups_read_only in Es by assumption. subst s'.
  simpl. rewrite Erun. simpl. rewrite Erun. simpl.
  split; [reflexivity|]. now exists (sequence, p).
Qed.

(** C8. A call changes the model through its lookups [P[w]] and through
    nothing else: the state of the model after the call is its state
    after the lookups of [queries text]. A model that its lookups leave
    as it is, is after the call as it was before, with the same
    token-to-probability mapping. *)
Theorem viterbi_segment_frame {F} `{Arith F} {S}
  (P : Model F S) (text : string) (s : S) (fuel : nat) :
  String.length text <= fuel ->
  snd (viterbi_segment P fuel text s) = after_lookups P (queries text) s /\
  (read_only P ->
   snd (viterbi_segment P fuel text s) = s /\
   forall w, prob P (snd (viterbi_segment P fuel text s)) w = prob P s w).
Proof.
  intros Hfuel.
  destruct (dp_loop_suffixes P text s) as (best & words & s' & E & Hsh & Hsuf).
  destruct (viterbi_segment_run P text fuel s s' best words E Hsh Hsuf Hfuel)
    as (sequence & p & Erun & _).
  destruct (dp_loop_state P text s) as (tb & E').
  rewrite E in E'. injection E' as _ Es. rewrite Erun. simpl.
  split; [assumption|]. intros Hro.
  rewrite Es, after_lookups_read_only by assumption. now split.
Qed.

(** C9. After the dynamic programming every entry of [words] at a
    position [i] from 1 to [n] is a nonempty slice [text[j:i]] that ends
    the prefix [text[0:i]]; an iteration of the backtracking loop at such
    a position moves to [i - len(words[i])], which is at least 0 and
    below [i]; and the loop ends at position 0. *)
Theorem backtracking_ends_at_zero {F} `{Arith F} {S}
  (P : Model F S) (text : string) (s : S) :
  exists best words s1,
    dp_loop P text (init_best text, init_words text) s
      = (Val (best, words), s1) /\
    (forall i, 1 <= i <= String.length text ->
       exists j, j < i /\ words !! i = Some (slice text j i) /\
         1 <= String.length (slice text j i) <= i /\
         String.append (slice text 0 j) (slice text j i) = slice text 0 i) /\
    (forall i sequence (s' : S), 1 <= i <= String.length text ->
       exists w, words !! i = Some w /\
         backtrack_body words (Z.of_nat i, sequence) s'
           = (Val ((Z.of_nat i - len_str w)%Z, w :: sequence), s') /\
         (0 <= Z.of_nat i - len_str w < Z.of_nat i)%Z) /\
    (forall fuel (s' : S), String.length text <= fuel ->
       exists sequence,
         backtrack fuel words s' = (Val (0%Z, sequence), s')).
Proof.
  destruct (dp_loop_suffixes P text s)
    as (best & words & s1 & E & [Hb Hw] & Hsuf). simpl in Hb, Hw.
  exists best, words, s1. split; [assumption|]. split; [|split].
  - intros i Hi. destruct (Hsuf i Hi) as (j & Hj & Ei).
    exists j. split; [assumption|]. split; [assumption|].
    rewrite slice_length by lia. split; [lia|]. apply slice_append. lia.
  - intros i sequence s' Hi.
    destruct (backtrack_body_run text words i sequence s' Hw Hsuf Hi)
      as (j & Hj & Ei & Erun).
    exists (slice text j i). split; [assumption|].
    unfold len_str. rewrite slice_length by lia.
    split; [|lia]. rewrite Erun. do 3 f_equal. lia.
  - intros fuel s' Hfuel.
    destruct (backtrack_run text fuel words s' Hw Hsuf Hfuel)
      as (sequence & Ebt & _).
    now exists sequence.
Qed.

(** C10, as stated, fails on the empty text, where the probability the
    call returns is 1.0. *)
Lemma zeros_on_empty_text_give_one :
  ~ zeros_give_zero (F := float) EmptyString.
Proof.
  intros Hstated. specialize (Hstated 0 ltac:(simpl; lia)).
  pose proof (f_equal
    (fun r : result (list string * float) =>
       match r with Val (_, p) => PrimFloat.eqb p 1 | _ => false end)
    Hstated) as Heq.
  vm_compute in Heq. discriminate Heq.
Qed.

(** C10, amended. For any model whatsoever every entry of [words] at a
    position from 1 on is a nonempty word after the dynamic programming,
    and the call returns a sequence of nonempty words. With the model
    that gives 0.0 to every token the call returns the characters of
    [text], with the probability 0.0 when [text] is not empty and 1.0
    when it is. *)
Theorem words_never_empty {F} `{Arith F} {S}
  (P : Model F S) (text : string) (s : S) :
  (exists best words s1,
     dp_loop P text (init_best text, init_words text) s
       = (Val (best, words), s1) /\
     (forall k, 1 <= k <= String.length text ->
        exists w, words !! k = Some w /\ w <> EmptyString) /\
     (forall fuel, String.length text <= fuel ->
        exists sequence p,
          viterbi_segment P fuel text s = (Val (sequence, p), s1) /\
          Forall (fun w => w <> EmptyString) sequence)) /\
  (mul zero one = zero -> mul zero zero = zero -> geb zero zero = true ->
   forall fuel, String.length text <= fuel ->
     fst (viterbi_segment table fuel text zeros)
     = Val (per_character text,
            if String.eqb text EmptyString then one else zero)).
Proof.
  split.
  - destruct (dp_loop_suffixes P text s)
      as (best & words & s1 & E & Hsh & Hsuf).
    exists best, words, s1. split; [assumption|]. split.
    + intros k Hk. destruct (Hsuf k Hk) as (j & Hj & Ek).
      exists (slice text j k). split; [assumption|]. intros E0.
      assert (El := slice_length text j k ltac:(lia)).
      rewrite E0 in El. simpl in El. lia.
    + intros fuel Hfuel.
      destruct (viterbi_segment_run P text fuel s s1 best words
                  E Hsh Hsuf Hfuel)
        as (sequence & p & Erun & _ & _ & _ & Hne & _).
      now exists sequence, p.
  - intros Hz1 Hz0 Hge fuel Hfuel.
    destruct (dp_loop_zeros text Hz1 Hz0 Hge)
      as (best & words & E & Hsh & Hone & Hun).
    destruct (dp_loop_suffixes table text zeros)
      as (best' & words' & s' & E' & _ & Hsuf).
    rewrite E in E'. injection E' as <- <- <-.
    destruct (viterbi_segment_run table text fuel zeros zeros best words
                E Hsh Hsuf Hfuel)
      as (sequence & p & Erun & _ & Ep & Hjoin & Hne & Hrd).
    rewrite Erun. simpl. do 2 f_equal.
    + apply (reads_characters text words); try assumption.
      intros k Hk. now apply Hun; lia.
    + destruct text as [|c rest].
      * simpl in Ep. rewrite Hone in Ep. now injection Ep.
      * pose proof (proj1 (Hun (String.length (String c rest))
                             ltac:(lia) ltac:(simpl; lia))) as Ez.
        simpl fst in Ez. rewrite Ep in Ez. now injection Ez.
Qed.

(** ** The properties at concrete inputs *)

Example segment_itis :
  fst (viterbi_segment table 4 "itis" it_is)
  = Val (["it"; "is"]%string, 0.0625%float).
Proof. reflexivity. Qed.

(** The loop needs its fuel: two words take two iterations. *)
Example segment_itis_out_of_fuel :
  fst (viterbi_segment table 1 "itis" it_is) = OutOfFuel.
Proof. reflexivity. Qed.

(** A single observed character. *)
Example segment_single_character :
  fst (viterbi_segment table 1 "a" quarter_half)
  = Val (["a"]%string, quarter_half "a").
Proof. reflexivity. Qed.

(** With NaN for every token no candidate passes the test, and the
    initial tables are returned. *)
Example segment_nan :
  fst (viterbi_segment table 3 "abc" (fun _ => nan))
  = Val (["a"; "b"; "c"]%string, 0%float).
Proof. reflexivity. Qed.

Lemma table_read_only {F} : read_only (table (F := F)).
Proof. intros w t. reflexivity. Qed.

Lemma quarter_half_Q_positive (w : string) :
  positive_prob (prob table quarter_half_Q w).
Proof.
  unfold prob, table, quarter_half_Q. simpl.
  destruct (String.eqb w "ab"); repeat split.
Qed.

Lemma quarter_half_positive (w : string) :
  positive_prob (prob table quarter_half w).
Proof.
  unfold prob, table, quarter_half. simpl.
  destruct (String.eqb w "ab"); repeat split.
Qed.

(** C1 on ["ab"] with the binary64 model [quarter_half]. *)
Lemma viterbi_best_is_maximum_witness :
  exists best words,
    dp_loop table "ab" (init_best "ab", init_words "ab") quarter_half
      = (Val (best, words), quarter_half) /\
    best !! 0 = Some one /\
    (forall i, i <= String.length "ab" ->
       exists b, best !! i = Some b /\
                 best_joint (prob table quarter_half) (slice "ab" 0 i) b) /\
    (forall fuel, String.length "ab" <= fuel ->
       exists sequence p,
         viterbi_segment table fuel "ab" quarter_half
           = (Val (sequence, p), quarter_half) /\
         best !! String.length "ab" = Some p /\
         best_joint (prob table quarter_half) "ab" p).
Proof.
  apply (viterbi_best_is_maximum table "ab" quarter_half).
  - apply table_read_only.
  - apply quarter_half_positive.
Defined.

(** C2 on ["ab"] with the binary64 model [quarter_half]. *)
Lemma viterbi_segment_reconstructs_witness :
  exists sequence p s',
    viterbi_segment table 2 "ab" quarter_half = (Val (sequence, p), s') /\
    join sequence = "ab"%string.
Proof.
  apply (viterbi_segment_reconstructs table "ab" quarter_half 2).
  simpl. lia.
Defined.

(** C3, amended, on ["ab"] with the binary64 model [quarter_half]: the
    final word the call returns is at most as long as the final word of
    [["ab"]], which ties with it at 0.25. *)
Lemma shortest_final_word_wins_witness :
  exists sequence p w,
    viterbi_segment table 2 "ab" quarter_half
      = (Val (sequence, p), quarter_half) /\
    joint (prob table quarter_half) ["ab"%string] = p /\
    last sequence = Some w /\
    String.length w <= String.length "ab".
Proof.
  destruct (shortest_final_word_wins table "ab" quarter_half 2)
    as (best & words & sequence & p & _ & Erun & _ & _ & Hties).
  - apply table_read_only.
  - simpl. lia.
  - assert (Eseq : sequence = ["a"; "b"]%string /\ p = 0.25%float).
    { pose proof (f_equal
        (fun r : result (list string * float) * (string -> float) =>
           match fst r with Val (sq, _) => sq | _ => [] end) Erun) as Es.
      pose proof (f_equal
        (fun r : result (list string * float) * (string -> float) =>
           match fst r with Val (_, q) => q | _ => 0%float end) Erun) as Ep.
      vm_compute in Es, Ep. now split. }
    destruct Eseq as [-> ->].
    exists ["a"; "b"]%string, 0.25%float, "b"%string.
    split; [exact Erun|]. split; [reflexivity|].
    split; [reflexivity|].
    apply (Hties float_laws
             (fun w => positive_prob_unit _ (quarter_half_positive w))
             ["ab"%string] "b"%string "ab"%string).
    + split; [reflexivity|]. repeat constructor. discriminate.
    + reflexivity.
    + reflexivity.
    + reflexivity.
Defined.

(** C4, amended, on ["ab"] at position 1. *)
Lemma initial_tables_witness :
  (init_best "ab" : list float) !! 1 = Some zero /\
  init_words "ab" !! 1 = Some "a"%string.
Proof.
  destruct (initial_tables (F := float) "ab") as (_ & _ & _ & _ & Hi).
  destruct (Hi 1) as (Hb & Hw & _); [simpl; lia|].
  split; [exact Hb|exact Hw].
Defined.

(** C5 on ["ab"] with the rational model [quarter_half_Q]. *)
Lemma viterbi_probability_bounds_witness :
  exists sequence p,
    viterbi_segment table 2 "ab" quarter_half_Q
      = (Val (sequence, p), quarter_half_Q) /\
    ("ab"%string <> EmptyString -> lt zero p /\ le p one) /\
    ("ab"%string = EmptyString -> p = one).
Proof.
  apply (viterbi_probability_bounds table "ab" quarter_half_Q 2).
  - apply table_read_only.
  - apply quarter_half_Q_positive.
  - simpl. lia.
Defined.

(** C7 on ["ab"] with the binary64 model [quarter_half]. *)
Lemma viterbi_segment_deterministic_witness :
  fst (viterbi_segment table 2 "ab"
         (snd (viterbi_segment table 2 "ab" quarter_half)))
  = fst (viterbi_segment table 2 "ab" quarter_half) /\
  exists r, fst (viterbi_segment table 2 "ab" quarter_half) = Val r.
Proof.
  apply (viterbi_segment_deterministic table "ab" quarter_half 2).
  - apply table_read_only.
  - simpl. lia.
Defined.

(** C8 on ["ab"] with the binary64 model [quarter_half]. *)
Lemma viterbi_segment_frame_witness :
  snd (viterbi_segment table 2 "ab" quarter_half) = quarter_half.
Proof.
  destruct (viterbi_segment_frame table "ab" quarter_half 2) as [_ Hro].
  - simpl. lia.
  - destruct (Hro table_read_only) as [Hs _]. exact Hs.
Defined.

(** C9 on ["ab"] with the binary64 model [quarter_half]: the loop ends
    at position 0 with two iterations of fuel. *)
Lemma backtracking_ends_at_zero_witness :
  exists words sequence,
    fst (dp_loop table "ab" (init_best "ab", init_words "ab") quarter_half)
      = Val (([1; 0.5; 0.25]%float : list float), words) /\
    backtrack 2 words quarter_half = (Val (0%Z, sequence), quarter_half).
Proof.
  destruct (backtracking_ends_at_zero table "ab" quarter_half)
    as (best & words & s1 & E & _ & _ & Hend).
  destruct (Hend 2 quarter_half) as (sequence & Ebt); [simpl; lia|].
  exists words, sequence. split; [|exact Ebt].
  rewrite E. simpl. vm_compute in E. injection E as Eb _ _.
  now rewrite <- Eb.
Defined.

(** C10, amended, on ["ab"] in binary64 arithmetic. *)
Lemma words_never_empty_witness :
  fst (viterbi_segment table 2 "ab" (zeros (F := float)))
  = Val (["a"; "b"]%string, 0%float).
Proof.
  destruct (words_never_empty table "ab" (zeros (F := float))) as [_ Hz].
  apply (Hz eq_refl eq_refl eq_refl 2). simpl. lia.
Defined.

(** * Further properties *)

(** ** The sequence returned attains the probability returned *)

(** Along the words that backtracking reads, the product of the
    probabilities is the entry of [best] at the end. *)
Lemma reads_joint {F} `{Arith F} (p : string -> F) (text : string)
  (best : list F) (words : list string) :
  consistent p text (best, words) ->
  forall sequence k bk,
    reads words k sequence ->
    Forall (fun w => w <> EmptyString) sequence ->
    k + String.length (join sequence) = String.length text ->
    best !! k = Some bk ->
    best !! String.length text
    = Some (fold_left (fun acc w => mul (p w) acc) sequence bk).
Proof.
  intros Hcons. induction sequence as [|w rest IH];
    intros k bk Hrd Hne Hlen Ek; simpl in *.
  - now replace (String.length text) with k by lia.
  - destruct Hrd as [Ew Hrd]. rewrite append_length in Hlen.
    apply Forall_cons in Hne as [Hw Hne].
    assert (1 <= String.length w) by (destruct w; simpl; [congruence|lia]).
    destruct (Hcons (k + String.length w)) as (j & bj & Hj & Ew' & Ej & Ei);
      [lia|]. simpl in Ew', Ej, Ei.
    rewrite Ew in Ew'. injection Ew' as Ew'.
    assert (Ejk : j = k).
    { assert (El : String.length w = k + String.length w - j)
        by (rewrite Ew' at 1; apply slice_length; lia).
      lia. }
    subst j. rewrite Ek in Ej. injection Ej as <-. rewrite <- Ew' in Ei.
    apply (IH (k + String.length w)); try assumption. lia.
Qed.

Section MostProbable.
Context {F : Type} `{ArithLaws F} {S : Type}.
Variable P : Model F S.
Variable text : string.
Variable s0 : S.
Hypothesis P_read_only : read_only P.
Hypothesis P_unit : forall w, unit_interval (prob P s0 w).

(** With probabilities in [[0, 1]] the first candidate of every position
    passes the test, so both tables are written at every position. *)
Lemma dp_loop_consistent :
  exists best words,
    dp_loop P text (init_best text, init_words text) s0
      = (Val (best, words), s0) /\
    consistent (prob P s0) text (best, words).
Proof.
  destruct (dp_loop_last_wins P text s0 P_read_only)
    as (best & words & E & Hsh & Hlw).
  destruct (dp_loop_optimal P text s0 P_read_only P_unit)
    as (best' & words' & E' & _ & Hone & _).
  rewrite E in E'. injection E' as <- <-.
  exists best, words. split; [assumption|]. intros i Hi.
  destruct (Hlw i Hi) as (j & bi & Hj & Ew & Eb & _ & Hor).
  simpl in Ew, Eb, Hor.
  destruct Hor as [(bj & Ej & ->)|(_ & _ & Hnone)].
  - now exists j, bj.
  - exfalso. specialize (Hnone 0 one ltac:(lia) Hone).
    assert (Hc : unit_interval (mul (prob P s0 (slice text 0 i)) one))
      by (apply mul_unit; [apply P_unit|apply unit_one]).
    destruct Hc as [Hc _]. unfold le in Hc. congruence.
Qed.

End MostProbable.

(** X1. With a read-only model whose probabilities are in [[0, 1]] (zero
    allowed) the call returns a most probable segmentation: the sequence
    is a segmentation of [text], its joint probability is the probability
    returned, and no segmentation of [text] has a larger one. *)
Theorem viterbi_segment_most_probable {F} `{ArithLaws F} {S}
  (P : Model F S) (text : string) (s : S) (fuel : nat) :
  read_only P ->
  (forall w, unit_interval (prob P s w)) ->
  String.length text <= fuel ->
  exists sequence p,
    viterbi_segment P fuel text s = (Val (sequence, p), s) /\
    segmentation text sequence /\
    joint (prob P s) sequence = p /\
    forall ws, segmentation text ws -> le (joint (prob P s) ws) p.
Proof.
  intros Hro Hunit Hfuel.
  destruct (dp_loop_consistent P text s Hro Hunit)
    as (best & words & E & Hcons).
  destruct (dp_loop_optimal P text s Hro Hunit)
    as (best' & words' & E' & Hsh & Hone & Hopt).
  rewrite E in E'. injection E' as <- <-.
  destruct (dp_loop_suffixes P text s)
    as (best' & words' & s' & E' & _ & Hsuf).
  rewrite E in E'. injection E' as <- <- <-.
  destruct (viterbi_segment_run P text fuel s s best words E Hsh Hsuf Hfuel)
    as (sequence & p & Erun & _ & Ep & Hjoin & Hne & Hrd).
  exists sequence, p. split; [assumption|]. split; [now split|].
  pose proof (reads_joint (prob P s) text best words Hcons sequence 0 one
                Hrd Hne ltac:(rewrite Hjoin; lia) Hone) as Ejoint.
  rewrite Ep in Ejoint. injection Ejoint as ->. split; [reflexivity|].
  destruct (Hopt (String.length text) ltac:(lia)) as (b & Eb & Hb).
  rewrite Ep in Eb. injection Eb as <-. rewrite slice_all in Hb.
  apply Hb.
Qed.

(** ** The tables hold the results of the prefixes *)

Lemma slice_length_text (text : string) (m : nat) :
  m <= String.length text -> String.length (slice text 0 m) = m.
Proof. intros Hm. rewrite slice_length by assumption. lia. Qed.

Lemma slice_slice (text : string) (m j i : nat) :
  i <= m -> slice (slice text 0 m) j i = slice text j i.
Proof.
  intros Hi. apply chars_inj. rewrite !chars_slice, drop_0, Nat.sub_0_r.
  rewrite skipn_firstn_comm, take_take. f_equal. lia.
Qed.

Lemma for_each_snoc {S X A} (xs : list X) (x : X) (body : X -> A -> M S A)
  (a a1 : A) (s s1 : S) :
  for_each xs body a s = (Val a1, s1) ->
  for_each (xs ++ [x]) body a s = body x a1 s1.
Proof.
  revert a s. induction xs as [|y xs IH]; intros a s E; simpl in *.
  - unfold ret in E. injection E as -> ->. unfold bind.
    now destruct (body x a1 s1) as [[b| |] t].
  - unfold bind in *. destruct (body y a s) as [[b| |] t];
      [now apply IH|discriminate|discriminate].
Qed.

Section Prefix.
Context {F : Type} `{Arith F} {S : Type}.
Variable P : Model F S.
Variable text : string.
Variable s0 : S.
Variable m : nat.
Hypothesis P_read_only : read_only P.
Hypothesis m_le : m <= String.length text.

Lemma init_agree_upto :
  agree_upto m (init_best text, init_words text)
    (init_best (slice text 0 m), init_words (slice text 0 m)).
Proof.
  intros k Hk. destruct (decide (k = 0)) as [->|Hk0]; [now split|].
  simpl. rewrite !init_best_zero, !init_words_char
    by (rewrite ?slice_length_text; lia).
  now rewrite slice_slice by lia.
Qed.

(** An iteration of the outer loop at a position of the prefix does the
    same to the tables of [text] and to the tables of the prefix. *)
Lemma dp_inner_prefix (i : nat) (tb tb' : list F * list string) :
  i <= m -> shape text tb -> shape (slice text 0 m) tb' ->
  agree_upto m tb tb' ->
  exists tb1 tb1',
    dp_inner P text i tb s0 = (Val tb1, s0) /\
    dp_inner P (slice text 0 m) i tb' s0 = (Val tb1', s0) /\
    shape text tb1 /\ shape (slice text 0 m) tb1' /\
    agree_upto m tb1 tb1'.
Proof.
  intros Hi Hsh Hsh' Hag.
  destruct (dp_inner_rule P text
    (fun j tb1 s => s = s0 /\
       exists tb1',
         for_each (range 0 j) (dp_body P (slice text 0 m) i) tb' s0
           = (Val tb1', s0) /\
         shape (slice text 0 m) tb1' /\ agree_upto m tb1 tb1')
    i tb s0) as (tb1 & s & E & Hsh1 & _ & -> & tb1' & E' & Hsh1' & Hag1);
    [lia|assumption| | |].
  - split; [reflexivity|]. now exists tb'.
  - intros j best words s bj bi Hj Hshj _
      (-> & [best' words'] & E' & Hsh1' & Hag1) Ej Ei.
    split; [apply P_read_only|].
    destruct (dp_body_run P (slice text 0 m) i j best' words' s0)
      as (bj' & bi' & Ej' & Ei' & Erun);
      [lia|rewrite slice_length_text by assumption; lia|assumption|].
    destruct (Hag1 j ltac:(lia)) as [Eqj _].
    destruct (Hag1 i ltac:(lia)) as [Eqi _]. simpl in Eqj, Eqi.
    rewrite Ej, Ej' in Eqj. injection Eqj as <-.
    rewrite Ei, Ei' in Eqi. injection Eqi as <-.
    rewrite slice_slice in Erun by lia. rewrite P_read_only in Erun.
    eexists. split; [|split].
    + rewrite range_snoc. rewrite (for_each_snoc _ _ _ _ _ _ _ E').
      exact Erun.
    + destruct Hsh1' as [Hb' Hw']. simpl in Hb', Hw'.
      destruct (geb _ bi); [|now split].
      split; simpl; now rewrite length_insert.
    + destruct Hshj as [Hb Hw]. destruct Hsh1' as [Hb' Hw'].
      simpl in Hb, Hw, Hb', Hw'.
      rewrite slice_length_text in Hb', Hw' by assumption.
      destruct (geb _ bi); [|assumption].
      intros k Hk. destruct (Hag1 k Hk) as [Eb Ew]. simpl in Eb, Ew |- *.
      destruct (decide (k = i)) as [->|Hne].
      * now rewrite !list_lookup_insert_eq by lia.
      * now rewrite !list_lookup_insert_ne by congruence.
  - exists tb1, tb1'. split; [assumption|]. split; [exact E'|].
    split; [assumption|]. now split.
Qed.

(** An iteration at a position after the prefix leaves the entries of
    the prefix as they are. *)
Lemma dp_inner_after_prefix (i : nat) (tb tb' : list F * list string) :
  m < i <= String.length text -> shape text tb -> agree_upto m tb tb' ->
  exists tb1,
    dp_inner P text i tb s0 = (Val tb1, s0) /\
    shape text tb1 /\ agree_upto m tb1 tb'.
Proof.
  intros Hi Hsh Hag.
  destruct (dp_inner_rule P text (fun _ _ s => s = s0) i tb s0)
    as (tb1 & s & E & Hsh1 & Hex & ->); [lia|assumption|reflexivity| |].
  - intros j best words s bj bi _ _ _ -> _ _. apply P_read_only.
  - exists tb1. split; [assumption|]. split; [assumption|].
    intros k Hk. destruct (Hex k ltac:(lia)) as [-> ->]. now apply Hag.
Qed.

Lemma dp_loop_prefix :
  exists tb tb',
    dp_loop P text (init_best text, init_words text) s0 = (Val tb, s0) /\
    dp_loop P (slice text 0 m)
      (init_best (slice text 0 m), init_words (slice text 0 m)) s0
      = (Val tb', s0) /\
    shape text tb /\ shape (slice text 0 m) tb' /\ agree_upto m tb tb'.
Proof.
  destruct (dp_loop_rule P text
    (fun i tb s => s = s0 /\
       exists tb',
         for_each (range 0 (Nat.min i (m + 1)))
           (dp_inner P (slice text 0 m))
           (init_best (slice text 0 m), init_words (slice text 0 m)) s0
           = (Val tb', s0) /\
         shape (slice text 0 m) tb' /\ agree_upto m tb tb')
    (init_best text, init_words text) s0)
    as (tb & s & E & Hsh & -> & tb' & E' & Hsh' & Hag).
  - apply init_shape.
  - split; [reflexivity|]. eexists. split; [reflexivity|].
    split; [apply init_shape|apply init_agree_upto].
  - intros i tb s Hi Hsh (-> & tb' & E' & Hsh' & Hag).
    destruct (decide (i <= m)) as [Him|Him].
    + destruct (dp_inner_prefix i tb tb' Him Hsh Hsh' Hag)
        as (tb1 & tb1' & E1 & E1' & Hsh1 & Hsh1' & Hag1).
      exists tb1, s0. split; [assumption|]. split; [assumption|].
      split; [reflexivity|]. exists tb1'. split; [|now split].
      rewrite Nat.min_l in E' by lia.
      replace (Nat.min (i + 1) (m + 1)) with (i + 1) by lia.
      rewrite range_snoc. now rewrite (for_each_snoc _ _ _ _ _ _ _ E').
    + destruct (dp_inner_after_prefix i tb tb' ltac:(lia) Hsh Hag)
        as (tb1 & E1 & Hsh1 & Hag1).
      exists tb1, s0. split; [assumption|]. split; [assumption|].
      split; [reflexivity|]. exists tb'. split; [|now split].
      now replace (Nat.min (i + 1) (m + 1)) with (Nat.min i (m + 1)) by lia.
  - exists tb, tb'. split; [assumption|].
    split; [|split; [assumption|now split]].
    unfold dp_loop. rewrite slice_length_text by assumption.
    now replace (Nat.min (String.length text + 1) (m + 1)) with (m + 1)
      in E' by lia.
Qed.

End Prefix.

Lemma reads_agree (words words' sequence : list string) (k m : nat) :
  (forall q, q <= m -> words !! q = words' !! q) ->
  k + String.length (join sequence) <= m ->
  reads words' k sequence -> reads words k sequence.
Proof.
  intros Hag. revert k. induction sequence as [|w rest IH];
    intros k Hlen Hrd; simpl in *; [exact I|].
  rewrite append_length in Hlen. destruct Hrd as [Ew Hrd].
  split; [rewrite Hag by lia; assumption|]. apply IH; [lia|assumption].
Qed.

(** X2. The tables mean what the comments of the function say. With a
    read-only model and any arithmetic, [best[m]] is the probability the
    function returns on the prefix [text[0:m]], and backtracking from
    position [m] in [words] reads the sequence it returns on that
    prefix; in particular [words[m]] is the last word of that sequence. *)
Theorem tables_hold_prefix_results {F} `{Arith F} {S}
  (P : Model F S) (text : string) (s : S) (m fuel : nat) :
  read_only P -> m <= String.length text -> m <= fuel ->
  exists best words sequence p,
    dp_loop P text (init_best text, init_words text) s
      = (Val (best, words), s) /\
    viterbi_segment P fuel (slice text 0 m) s = (Val (sequence, p), s) /\
    best !! m = Some p /\
    reads words 0 sequence /\
    join sequence = slice text 0 m /\
    (forall w, last sequence = Some w -> words !! m = Some w).
Proof.
  intros Hro Hm Hfuel.
  destruct (dp_loop_prefix P text s m Hro Hm)
    as ([best words] & [best' words'] & E & E' & Hsh & Hsh' & Hag).
  destruct (dp_loop_suffixes P (slice text 0 m) s)
    as (best1 & words1 & s1 & E1 & _ & Hsuf).
  rewrite E' in E1. injection E1 as <- <- <-.
  pose proof (slice_length_text text m Hm) as Elen.
  destruct (viterbi_segment_run P (slice text 0 m) fuel s s best' words'
              E' Hsh' Hsuf ltac:(lia))
    as (sequence & p & Erun & _ & Ep & Hjoin & _ & Hrd).
  rewrite Elen in Ep.
  assert (Hrd' : reads words 0 sequence).
  { apply (reads_agree words words' sequence 0 m);
      [intros q Hq; apply (Hag q Hq)| |assumption].
    rewrite Hjoin, Elen. lia. }
  exists best, words, sequence, p. split; [assumption|].
  split; [assumption|]. split; [|split; [assumption|split; [assumption|]]].
  - pose proof (proj1 (Hag m ltac:(lia))) as Eb. simpl in Eb.
    now rewrite Eb.
  - intros w Hlast.
    pose proof (reads_last words sequence 0 w Hrd' Hlast) as Ew.
    now rewrite Hjoin, Elen in Ew.
Qed.

(** ** The lookups of a call *)

Lemma after_lookups_recording {F} (p : string -> F) (ws log : list string) :
  after_lookups (recording p) ws log = log ++ ws.
Proof.
  unfold after_lookups. revert log.
  induction ws as [|w ws IH]; intros log; simpl.
  - now rewrite app_nil_r.
  - now rewrite IH, <- app_assoc.
Qed.

Lemma queries_length (text : string) :
  2 * length (queries text) = String.length text * (String.length text + 1).
Proof.
  unfold queries. induction (String.length text) as [|n IH].
  - reflexivity.
  - replace (Datatypes.S n + 1) with (n + 1 + 1) by lia.
    rewrite (range_snoc (n + 1)), flat_map_app, length_app.
    cbn [flat_map]. rewrite app_nil_r, length_map.
    assert (Er : length (range 0 (n + 1)) = n + 1)
      by (unfold range; rewrite length_seq; lia).
    rewrite Er. lia.
Qed.

Lemma queries_slices (text : string) :
  Forall (fun w => w <> EmptyString /\
                   exists j i, j < i <= String.length text /\
                               w = slice text j i)
         (queries text).
Proof.
  unfold queries. apply Forall_flat_map, List.Forall_forall.
  intros i Hi. apply in_seq in Hi.
  apply Forall_map, List.Forall_forall. intros j Hj. apply in_seq in Hj.
  split.
  - intros E0. assert (El := slice_length text j i ltac:(lia)).
    rewrite E0 in El. simpl in El. lia.
  - exists j, i. split; [lia|reflexivity].
Qed.

(** X3. The lookups of a call, recorded by the model: the tokens looked
    up are [text[j:i]] for [i] from 1 to [n] and [j] from 0 to [i-1], in
    this order. There are [n * (n + 1) / 2] of them, each a nonempty
    slice of [text]: the model is never asked for the empty token. *)
Theorem viterbi_segment_lookups {F} `{Arith F}
  (p : string -> F) (text : string) (log : list string) (fuel : nat) :
  String.length text <= fuel ->
  snd (viterbi_segment (recording p) fuel text log) = log ++ queries text /\
  2 * length (queries text) = String.length text * (String.length text + 1) /\
  Forall (fun w => w <> EmptyString /\
                   exists j i, j < i <= String.length text /\
                               w = slice text j i)
         (queries text).
Proof.
  intros Hfuel. split; [|split; [apply queries_length|apply queries_slices]].
  destruct (dp_loop_suffixes (recording p) text log)
    as (best & words & s' & E & Hsh & Hsuf).
  destruct (viterbi_segment_run (recording p) text fuel log s' best words
              E Hsh Hsuf Hfuel) as (sequence & pr & Erun & _).
  destruct (dp_loop_state (recording p) text log) as (tb & E').
  rewrite E in E'. injection E' as _ ->. rewrite Erun. simpl.
  apply after_lookups_recording.
Qed.

(** ** A model whose candidates never pass the test *)

Lemma dp_loop_never_passes {F} `{Arith F} (p : string -> F) (text : string) :
  never_passes p ->
  dp_loop table text (init_best text, init_words text) p
  = (Val (init_best text, init_words text), p).
Proof.
  intros Hnp.
  destruct (dp_loop_rule table text
    (fun _ tb s => tb = (init_best text, init_words text) /\ s = p)
    (init_best text, init_words text) p) as (tb & s & E & _ & -> & ->);
    [apply init_shape|now split| |assumption].
  intros i tb s Hi Hsh [-> ->].
  destruct (dp_inner_rule table text
    (fun _ tb s => tb = (init_best text, init_words text) /\ s = p)
    i (init_best text, init_words text) p)
    as (tb & s & E & Hsh' & _ & -> & ->);
    [assumption|assumption|now split|
    |exists (init_best text, init_words text), p;
     split; [exact E|split; [assumption|now split]]].
  intros j best words s bj bi Hj _ _ [Etb ->] Ej Ei.
  injection Etb as -> ->. split; [|reflexivity].
  change (prob table p (slice text j i)) with (p (slice text j i)).
  rewrite init_best_zero in Ei by lia. injection Ei as <-.
  destruct (Hnp (slice text j i)) as [Hone Hzero].
  destruct (decide (j = 0)) as [->|Hj0].
  - simpl in Ej. injection Ej as <-. now rewrite Hone.
  - rewrite init_best_zero in Ej by lia. injection Ej as <-.
    now rewrite Hzero.
Qed.

(** X4. When no candidate passes the test, as with a model that answers
    NaN, the tables stay as they were initialized and the call returns
    the characters of [text], with the probability 0.0 (1.0 on the empty
    text): the initial value of [words] is the fallback. *)
Theorem viterbi_segment_never_passes {F} `{Arith F}
  (p : string -> F) (text : string) (fuel : nat) :
  never_passes p -> String.length text <= fuel ->
  dp_loop table text (init_best text, init_words text) p
    = (Val (init_best text, init_words text), p) /\
  viterbi_segment table fuel text p
    = (Val (per_character text,
            if String.eqb text EmptyString then one else zero), p).
Proof.
  intros Hnp Hfuel. pose proof (dp_loop_never_passes p text Hnp) as E.
  split; [assumption|].
  destruct (viterbi_segment_run table text fuel p p
              (init_best text) (init_words text) E
              (init_shape text) (init_suffixes text) Hfuel)
    as (sequence & pr & Erun & _ & Ep & Hjoin & Hne & Hrd).
  rewrite Erun. do 2 f_equal. f_equal.
  - apply (reads_characters text (init_words text)); try assumption.
    intros k Hk. now apply init_words_char.
  - destruct text as [|c rest].
    + simpl in Ep. now injection Ep.
    + rewrite init_best_zero in Ep by (simpl; lia). now injection Ep.
Qed.

(** ** The iterations of the backtracking loop *)

Lemma join_length_words (ws : list string) :
  Forall (fun w => w <> EmptyString) ws ->
  length ws <= String.length (join ws).
Proof.
  induction 1 as [|w ws Hw _ IH]; simpl; [lia|].
  rewrite append_length. destruct w; simpl; [congruence|lia].
Qed.

(** From position [k] the loop prepends a sequence [pre] of words, in
    as many iterations as [pre] has words. *)
Lemma backtrack_iterations {S} (text : string) (words : list string) (s : S) :
  length words = String.length text + 1 -> suffixes text words ->
  forall k acc, k <= String.length text ->
    exists pre,
      (forall fuel, length pre <= fuel ->
         while fuel backtrack_cond (backtrack_body words)
           (Z.of_nat k, acc) s = (Val (0%Z, pre ++ acc), s)) /\
      (forall fuel, fuel < length pre ->
         fst (while fuel backtrack_cond (backtrack_body words)
                (Z.of_nat k, acc) s) = OutOfFuel).
Proof.
  intros Hlen Hsuf k. induction k as [k IH] using lt_wf_ind.
  intros acc Hk. destruct (decide (k = 0)) as [->|Hk0].
  - exists []. split; [|simpl; lia]. intros fuel _.
    destruct fuel; reflexivity.
  - destruct (backtrack_body_run text words k acc s Hlen Hsuf ltac:(lia))
      as (j & Hj & _ & Ebody).
    destruct (IH j Hj (slice text j k :: acc) ltac:(lia))
      as (pre & Hval & Hout).
    assert (Hcond : backtrack_cond (Z.of_nat k, acc) = true)
      by (apply Z.ltb_lt; simpl; lia).
    exists (pre ++ [slice text j k]). rewrite length_app. simpl.
    split; intros fuel Hfuel; destruct fuel as [|fuel]; simpl;
      rewrite Hcond; try lia; try reflexivity;
      rewrite (bind_val _ _ _ _ _ Ebody).
    + rewrite <- app_assoc. apply Hval. lia.
    + apply Hout. lia.
Qed.

(** X5. The backtracking loop makes as many iterations as the sequence
    returned has words, at most [n]: with this much fuel the call
    returns, with less it is still in the loop. *)
Theorem viterbi_segment_iterations {F} `{Arith F} {S}
  (P : Model F S) (text : string) (s : S) :
  exists sequence p s1,
    length sequence <= String.length text /\
    (forall fuel, length sequence <= fuel ->
       viterbi_segment P fuel text s = (Val (sequence, p), s1)) /\
    (forall fuel, fuel < length sequence ->
       fst (viterbi_segment P fuel text s) = OutOfFuel).
Proof.
  destruct (dp_loop_suffixes P text s)
    as (best & words & s1 & E & Hsh & Hsuf).
  destruct (viterbi_segment_run P text (String.length text) s s1 best words
              E Hsh Hsuf ltac:(lia))
    as (sequence & p & Erun & Ebt & Ep & Hjoin & Hne & _).
  destruct Hsh as [Hb Hw]. simpl in Hb, Hw.
  destruct (backtrack_iterations text words s1 Hw Hsuf
              (String.length text) [] ltac:(lia)) as (pre & Hval & Hout).
  assert (Estart : (len_list words - 1)%Z = Z.of_nat (String.length text))
    by (unfold len_list; lia).
  assert (Hle : length sequence <= String.length text).
  { pose proof (join_length_words sequence Hne) as Hl.
    now rewrite Hjoin in Hl. }
  assert (Epre : pre = sequence).
  { destruct (decide (length pre <= String.length text)) as [Hp|Hp].
    - specialize (Hval _ Hp). unfold backtrack in Ebt.
      rewrite Estart, Hval, app_nil_r in Ebt. now injection Ebt.
    - specialize (Hout (String.length text) ltac:(lia)).
      unfold backtrack in Ebt. rewrite Estart in Ebt.
      rewrite Ebt in Hout. discriminate. }
  subst pre. exists sequence, p, s1. split; [assumption|]. split.
  - intros fuel Hfuel. unfold viterbi_segment.
    rewrite (bind_val _ _ _ _ _ E).
    assert (Ebt' : backtrack fuel words s1 = (Val (0%Z, sequence), s1)).
    { unfold backtrack. rewrite Estart, (Hval fuel Hfuel).
      now rewrite app_nil_r. }
    rewrite (bind_val _ _ _ _ _ Ebt').
    now rewrite (bind_val _ _ _ _ _
                   (lift_some _ _ _ (list_getitem_last _ _ _ Hb Ep))).
  - intros fuel Hfuel. unfold viterbi_segment.
    rewrite (bind_val _ _ _ _ _ E). unfold bind at 1.
    specialize (Hout fuel Hfuel). unfold backtrack. rewrite Estart.
    destruct (while fuel backtrack_cond (backtrack_body words)
                (Z.of_nat (String.length text), []) s1) as [[st| |] t];
      simpl in Hout; try discriminate. reflexivity.
Qed.

(** ** The result depends on the model through the values of its lookups *)

Section Values.
Context {F : Type} `{Arith F} {S : Type}.
Variable P : Model F S.
Variable p : string -> F.
Variable text : string.
Hypothesis P_values : forall w s, prob P s w = p w.

Lemma dp_inner_values (i : nat) (tb : list F * list string) (s : S) :
  i <= String.length text -> shape text tb ->
  exists tb' s',
    dp_inner P text i tb s = (Val tb', s') /\
    dp_inner table text i tb p = (Val tb', p) /\ shape text tb'.
Proof.
  intros Hi Hsh.
  destruct (dp_inner_rule P text
    (fun j tb1 _ =>
       for_each (range 0 j) (dp_body table text i) tb p = (Val tb1, p))
    i tb s) as (tb' & s' & E & Hsh' & _ & E'); [lia|assumption|reflexivity| |].
  - intros j best words s1 bj bi Hj Hshj _ E' Ej Ei.
    destruct (dp_body_run table text i j best words p Hj Hi Hshj)
      as (bj' & bi' & Ej' & Ei' & Erun).
    rewrite Ej in Ej'. injection Ej' as <-.
    rewrite Ei in Ei'. injection Ei' as <-.
    rewrite range_snoc, (for_each_snoc _ _ _ _ _ _ _ E'), Erun.
    now rewrite P_values.
  - now exists tb', s'.
Qed.

Lemma dp_loop_values (s : S) :
  exists tb s',
    dp_loop P text (init_best text, init_words text) s = (Val tb, s') /\
    dp_loop table text (init_best text, init_words text) p = (Val tb, p).
Proof.
  destruct (dp_loop_rule P text
    (fun i tb _ =>
       for_each (range 0 i) (dp_inner table text)
         (init_best text, init_words text) p = (Val tb, p))
    (init_best text, init_words text) s) as (tb & s' & E & _ & E');
    [apply init_shape|reflexivity| |now exists tb, s'].
  intros i tb s1 Hi Hsh E'.
  destruct (dp_inner_values i tb s1 Hi Hsh) as (tb' & s' & E1 & E1' & Hsh').
  exists tb', s'. split; [assumption|]. split; [assumption|].
  now rewrite range_snoc, (for_each_snoc _ _ _ _ _ _ _ E').
Qed.

End Values.

(** The backtracking loop does not look at the model. *)
Lemma while_backtrack_state {S S'} (words : list string) (fuel : nat)
  (st : Z * list string) (s : S) (s' : S') :
  while fuel backtrack_cond (backtrack_body words) st s
  = (fst (while fuel backtrack_cond (backtrack_body words) st s'), s).
Proof.
  revert st. induction fuel as [|fuel IH]; intros [i acc]; simpl;
    destruct (backtrack_cond (i, acc)); try reflexivity.
  unfold bind, backtrack_body, lift, ret.
  destruct (list_getitem words i) as [w|]; [|reflexivity].
  rewrite (IH (_, _)). now destruct (while fuel _ _ _ s') as [[r| |] t].
Qed.

(** X6. The result of a call depends on the model only through the
    values its lookups return: a model with a state of its own (a cache,
    a counter) whose lookups return the values of the table [p] gives
    the result of the table [p], whatever the fuel. *)
Theorem viterbi_segment_values {F} `{Arith F} {S}
  (P : Model F S) (p : string -> F) (text : string) (s : S) (fuel : nat) :
  (forall w s, prob P s w = p w) ->
  fst (viterbi_segment P fuel text s)
  = fst (viterbi_segment table fuel text p).
Proof.
  intros Hval.
  destruct (dp_loop_values P p text Hval s) as ([best words] & s' & E & E').
  unfold viterbi_segment.
  rewrite (bind_val _ _ _ _ _ E), (bind_val _ _ _ _ _ E').
  unfold bind at 1 3. unfold backtrack.
  rewrite (while_backtrack_state words fuel _ s' p).
  destruct (while fuel backtrack_cond (backtrack_body words) _ p)
    as [[[i sequence]| |] t]; try reflexivity.
  simpl. unfold bind, lift, ret.
  now destruct (list_getitem best (-1)).
Qed.

(** ** The further properties at concrete inputs *)

(** X1 on ["ab"] with the binary64 model [quarter_half]. *)
Lemma viterbi_segment_most_probable_witness :
  exists sequence p,
    viterbi_segment table 2 "ab" quarter_half
      = (Val (sequence, p), quarter_half) /\
    segmentation "ab" sequence /\
    joint (prob table quarter_half) sequence = p /\
    forall ws, segmentation "ab" ws ->
      le (joint (prob table quarter_half) ws) p.
Proof.
  apply (viterbi_segment_most_probable table "ab" quarter_half 2).
  - apply table_read_only.
  - intro w. apply positive_prob_unit, quarter_half_positive.
  - simpl. lia.
Defined.

(** X2 on the prefix ["a"] of ["ab"] with the binary64 model
    [quarter_half]. *)
Lemma tables_hold_prefix_results_witness :
  exists best words sequence p,
    dp_loop table "ab" (init_best "ab", init_words "ab") quarter_half
      = (Val (best, words), quarter_half) /\
    viterbi_segment table 1 (slice "ab" 0 1) quarter_half
      = (Val (sequence, p), quarter_half) /\
    best !! 1 = Some p /\ reads words 0 sequence /\
    join sequence = slice "ab" 0 1 /\
    (forall w, last sequence = Some w -> words !! 1 = Some w).
Proof.
  apply (tables_hold_prefix_results table "ab" quarter_half 1 1).
  - apply table_read_only.
  - simpl. lia.
  - lia.
Defined.

(** X3 on ["ab"] with the recording model of [quarter_half]. *)
Lemma viterbi_segment_lookups_witness :
  snd (viterbi_segment (recording quarter_half) 2 "ab" [])
    = [] ++ queries "ab" /\
  2 * length (queries "ab") = String.length "ab" * (String.length "ab" + 1) /\
  Forall (fun w => w <> EmptyString /\
           exists j i, j < i <= String.length "ab" /\ w = slice "ab" j i)
         (queries "ab").
Proof.
  apply (viterbi_segment_lookups quarter_half "ab" [] 2). simpl. lia.
Defined.

(** X4 on ["ab"] with the model that gives every token NaN. *)
Lemma viterbi_segment_never_passes_witness :
  dp_loop table "ab" (init_best "ab", init_words "ab") nans
    = (Val (init_best "ab", init_words "ab"), nans) /\
  viterbi_segment table 2 "ab" nans
    = (Val (per_character "ab",
            if String.eqb "ab" EmptyString then one else zero), nans).
Proof.
  apply (viterbi_segment_never_passes nans "ab" 2).
  - intro w. split; reflexivity.
  - simpl. lia.
Defined.

(** X6 on ["ab"] with the recording model of [quarter_half]. *)
Lemma viterbi_segment_values_witness :
  fst (viterbi_segment (recording quarter_half) 2 "ab" [])
  = fst (viterbi_segment table 2 "ab" quarter_half).
Proof.
  apply (viterbi_segment_values (recording quarter_half) quarter_half "ab" [] 2).
  intros w s. reflexivity.
Defined.
